(** * The validator simulation loop of neurons/val_sim.py

    A shallow embedding of [Miner.run] and [Miner.block_listener]: the
    per-peer trial/revert evaluation, the loss-improvement computation, the
    moving average of the binary own-data/other-data signal, the application
    of the gathered gradient and the window counters.

    Conventions of the embedding.
    - Python floats and tensor elements are exact rationals ([Qc], canonical
      fractions, so that [=] is equality of values); rounding is not modelled.
      A float division by zero raises [ZeroDivisionError], as in Python.
    - A tensor is the list of its elements; element-wise operations pair the
      elements of their operands.
    - Dictionaries are finite maps ([gmap]); [named_parameters] is the ordered
      list the model iterates over.
    - The collaborators that are not part of the file (the model's forward
      pass, the DCT codec, the comms layer, the dataset loader, the learning
      rate schedule) are parameters of the development: section variables and
      the per-window record [window_io].
    - An exception that [run] does not catch ends [run]: the embedding
      returns [Raise e]. *)

From Stdlib Require Import ZArith QArith Qcanon Lqa.
From stdpp Require Import base numbers gmap strings pretty list.

Open Scope Qc_scope.

(** ** Python values *)

Inductive exn : Type :=
  | KeyError (key : string)
  | ZeroDivisionError.

Inductive result (A : Type) : Type :=
  | Ok (a : A)
  | Raise (e : exn).
Arguments Ok {A} a.
Arguments Raise {A} e.

Definition bind {A B : Type} (r : result A) (k : A -> result B) : result B :=
  match r with
  | Ok a => k a
  | Raise e => Raise e
  end.

Notation "x <- r ;; k" := (bind r (fun x => k))
  (at level 100, r at next level, right associativity).

#[global] Instance exn_eq_dec : EqDecision exn.
Proof. solve_decision. Defined.

(** The number [n] as a Python float. *)
Definition of_nat (n : nat) : Qc := Qc_of_Z (Z.of_nat n).

(** ** Tensors *)

Definition tensor : Type := list Qc.

(** [torch.sign] on one element. *)
Definition sign (x : Qc) : Qc :=
  if decide (0 < x) then 1 else if decide (x < 0) then - 1 else 0.

(** [t.sign()] *)
Definition tensor_sign (t : tensor) : tensor := sign <$> t.

(** [p.sub_(other, alpha=a)]: p <- p - a * other *)
Definition sub_ (p other : tensor) (a : Qc) : tensor :=
  zip_with (fun x y => x - a * y) p other.

(** [p.add_(other, alpha=a)]: p <- p + a * other *)
Definition add_ (p other : tensor) (a : Qc) : tensor :=
  zip_with (fun x y => x + a * y) p other.

(** A value stored in a peer's state dict: the [idxs] (integer) or the
    [vals] (float) tensor of one compressed parameter. *)
Inductive blob : Type :=
  | IntTensor (l : list Z)
  | FloatTensor (l : list Qc).

(** An attribute of [gather_result.state_dict]: one tensor or a list of
    tensors (one per peer). *)
Inductive gathered : Type :=
  | One (t : blob)
  | Many (l : list blob).

(** [if not isinstance(x, (list, tuple)): x = [x]] *)
Definition as_list (x : gathered) : list blob :=
  match x with
  | One t => [t]
  | Many l => l
  end.

(** The state dict has both the [idxs] and the [vals] of parameter [n]. *)
Definition covered (state_dict : gmap string blob) (n : string) : Prop :=
  is_Some (state_dict !! (n +:+ "idxs")) /\ is_Some (state_dict !! (n +:+ "vals")).

#[global] Instance covered_dec (state_dict : gmap string blob) (n : string) :
  Decision (covered state_dict n).
Proof. unfold covered. apply _. Defined.

(** Every one of the given parameter names has a gradient at the revert: the
    update brings it or [temp_grad] already holds one. *)
Definition revertible (state_dict : gmap string blob) (temp_grad : gmap string tensor)
    (ns : list string) : Prop :=
  Forall (fun n => covered state_dict n \/ is_Some (temp_grad !! n)) ns.

#[global] Instance revertible_dec (state_dict : gmap string blob)
    (temp_grad : gmap string tensor) (ns : list string) :
  Decision (revertible state_dict temp_grad ns).
Proof. unfold revertible. apply _. Defined.

(** A batch of token ids, as the loader yields it. *)
Definition batch : Type := list (list Z).

(** ** The model *)

Record parameter : Type := mk_parameter {
  data : tensor;
  grad : option tensor
}.

Record nn_module : Type := mk_module {
  named_parameters : list (string * parameter);
  training : bool
}.

Definition set_data (p : parameter) (d : tensor) : parameter :=
  {| data := d; grad := grad p |}.

Definition set_grad (p : parameter) (g : option tensor) : parameter :=
  {| data := data p; grad := g |}.

Definition set_parameters (m : nn_module) (ps : list (string * parameter)) : nn_module :=
  {| named_parameters := ps; training := training m |}.

(** [copy.deepcopy(model)]: the copy shares nothing with the original. *)
Definition deepcopy (m : nn_module) : nn_module := m.

(** [model.train()] *)
Definition train (m : nn_module) : nn_module :=
  {| named_parameters := named_parameters m; training := true |}.

(** [model.zero_grad()] *)
Definition zero_grad (m : nn_module) : nn_module :=
  set_parameters m (prod_map id (fun p => set_grad p None) <$> named_parameters m).

(** The names of the parameters, in iteration order. *)
Definition names (ps : list (string * parameter)) : list string := fst <$> ps.

(** ** The loader *)

(** Each [enumerate(loader)] of an evaluation walks the loader afresh; the
    record holds the batches the first and the second walk yield. *)
Record loader : Type := mk_loader {
  first_walk : list batch;
  second_walk : list batch
}.

(** ** Loss improvement *)

(** [100*(1.-loss_after_per_batch/loss_before_per_batch)] *)
Definition improvement (loss_after_per_batch loss_before_per_batch : Qc) : result Qc :=
  if decide (loss_before_per_batch = 0) then Raise ZeroDivisionError
  else Ok (Qc_of_Z 100 * (1 - loss_after_per_batch / loss_before_per_batch)).

(** [loss / n_batches if n_batches > 0 else 0] *)
Definition per_batch (loss : Qc) (n_batches : nat) : Qc :=
  if decide (0 < n_batches)%nat then loss / of_nat n_batches else 0.

Definition sum_losses (l : list Qc) : Qc := foldr Qcplus 0 l.


(** ** The moving average of the binary indicator *)

Definition alpha : Qc := Q2Qc (5 # 100).

(** [1 if loss_improvement_other[uid] < loss_improvement[uid] else -1] *)
Definition binary_value (own other : Qc) : Z :=
  if decide (other < own) then 1%Z else (-1)%Z.

(** [(1 - alpha) * prev_avg + alpha * binary_value] *)
Definition moving_avg (prev_avg : Qc) (binary_value : Z) : Qc :=
  (1 - alpha) * prev_avg + alpha * Qc_of_Z binary_value.

(** [loss_improvement_moving_avg[uid] if uid in loss_improvement_moving_avg else 0] *)
Definition prev_avg (loss_improvement_moving_avg : gmap Z Qc) (uid : Z) : Qc :=
  default 0 (loss_improvement_moving_avg !! uid).

(** The body of [for uid in loss_improvement.keys()]. *)
Definition update_one (loss_improvement_other : gmap Z Qc)
    (uid : Z) (own : Qc) (avg : gmap Z Qc) : gmap Z Qc :=
  match loss_improvement_other !! uid with
  | Some other =>
      <[uid := moving_avg (prev_avg avg uid) (binary_value own other)]> avg
  | None => avg
  end.

(** The loop over the keys of [loss_improvement]; every key is visited once
    and touches its own entry only. *)
Definition update_moving_avg (loss_improvement loss_improvement_other : gmap Z Qc)
    (avg : gmap Z Qc) : gmap Z Qc :=
  map_fold (update_one loss_improvement_other) avg loss_improvement.


(** The values the binary indicator takes. *)
Definition binary (s : Z) : Prop := s = 1%Z \/ s = (-1)%Z.

#[global] Instance binary_dec (s : Z) : Decision (binary s).
Proof. unfold binary. apply _. Defined.


(** ** The window clock *)

(** [int(a / b)] on block numbers, for a window size that is not 0. *)
Definition window_of (block blocks_per_window : Z) : Z :=
  Z.quot block blocks_per_window.

(** The first [while True] of [run]: it reads [self.current_window] until the
    value differs from [self.sync_window].  [reads] are the values the block
    listener makes visible to the successive reads; [None] when the loop is
    still spinning after all of them. *)
Fixpoint wait_exhausted (sync_window : Z) (reads : list Z) : option (list Z) :=
  match reads with
  | [] => None
  | current_window :: rest =>
      if decide (current_window ≠ sync_window) then Some rest
      else wait_exhausted sync_window rest
  end.

(** [for x in l: s = step(x, s)], ended by the first exception. *)
Fixpoint for_each {A S : Type} (step : A -> S -> result S) (l : list A) (s : S) : result S :=
  match l with
  | [] => Ok s
  | x :: l' => s' <- step x s;; for_each step l' s'
  end.

(** [l.remove(x)]: drops the first occurrence. *)
Fixpoint list_remove (x : Z) (l : list Z) : list Z :=
  match l with
  | [] => []
  | y :: l' => if decide (x = y) then l' else y :: list_remove x l'
  end.

(** ** The state of the miner and the answers of its collaborators *)

(** The attributes of [self] that [run] uses, the number of steps the
    scheduler has taken, and [loss_improvement_moving_avg], a local of [run]
    that lives across the windows. *)
Record miner : Type := mk_miner {
  uid : Z;
  peers : list Z;
  model : nn_module;
  last_epoch : nat;
  current_window : Z;
  sync_window : Z;
  global_step : Z;
  window_step : Z;
  loss_improvement_moving_avg : gmap Z Qc
}.

(** What the awaited calls of one window return. *)
Record window_io : Type := mk_window_io {
  (** the attributes of [gather_result.state_dict] *)
  gather_result : gmap string gathered;
  (** [comms.get(uid=str(eval_uid), key='gradient', ...)] *)
  get_gradient : Z -> option (gmap string blob);
  (** the loader on the pages seeded by [eval_uid] *)
  own_loader : Z -> loader;
  (** the loader on the pages seeded by [random.randint(0, 10000)] *)
  other_loader : Z -> loader
}.

(** What one trial evaluation of a peer leaves behind and logs. *)
Record evaluation : Type := mk_evaluation {
  ev_model : nn_module;
  ev_model_copy : nn_module;
  ev_temp_grad : gmap string tensor;
  ev_loss_before : Qc;
  ev_loss_after : Qc;
  ev_improvement : Qc
}.

(** The variables a pass over the peers carries from peer to peer. *)
Record pass_state : Type := mk_pass_state {
  ps_model : nn_module;
  ps_model_copy : nn_module;
  ps_temp_grad : gmap string tensor;
  ps_improvement : gmap Z Qc
}.

(** What a window leaves behind: the miner, and the two dictionaries it logs. *)
Record window_out : Type := mk_window_out {
  after : miner;
  loss_improvement : gmap Z Qc;
  loss_improvement_other : gmap Z Qc
}.

(** [eval_result[eval_uid] = await self.comms.get(...)] for every peer. *)
Definition fetch_all (io : window_io) (peers : list Z) : gmap Z (option (gmap string blob)) :=
  foldl (fun eval_result eval_uid => <[eval_uid := get_gradient io eval_uid]> eval_result) ∅ peers.

Section Miner.

(** [self.model(input_ids=..., labels=...).loss.item()] on one batch *)
Variable forward : nn_module -> batch -> Qc.

(** [self.transformer.decode(self.compressor.decompress(p, idxs, vals,
    self.xshapes[n], self.totalks[n]))] *)
Variable decode : string -> tensor -> blob -> blob -> tensor.

(** [self.transformer.decode(self.compressor.batch_decompress(p, idxs, vals,
    self.xshapes[n], self.totalks[n]))] *)
Variable batch_decode : string -> tensor -> list blob -> list blob -> tensor.

(** [self.scheduler.get_last_lr()[0]] after the given number of
    [scheduler.step()] calls *)
Variable lr_schedule : nat -> Qc.

(** The loop [for i, batch in enumerate(loader): if i > 3: break; ...] with
    its two accumulators. *)
Fixpoint loss_loop (model : nn_module) (i : nat) (batches : list batch)
    (loss : Qc) (n_batches : nat) : Qc * nat :=
  match batches with
  | [] => (loss, n_batches)
  | b :: rest =>
      if decide (3 < i)%nat then (loss, n_batches)
      else loss_loop model (S i) rest (loss + forward model b) (S n_batches)
  end.

(** [loss_before_per_batch], and as well [loss_after_per_batch]. *)
Definition loss_per_batch (model : nn_module) (batches : list batch) : Qc :=
  let r := loss_loop model 0 batches 0 0 in
  per_batch r.1 r.2.

(** The trial: for every parameter whose [idxs] and [vals] are in the peer's
    state dict, decode the gradient, remember it in [temp_grad] and step the
    parameter against its sign. *)
Fixpoint trial (state_dict : gmap string blob) (step : Qc)
    (params : list (string * parameter)) (temp_grad : gmap string tensor)
    : list (string * parameter) * gmap string tensor :=
  match params with
  | [] => ([], temp_grad)
  | (n, p) :: rest =>
      match state_dict !! (n +:+ "idxs"), state_dict !! (n +:+ "vals") with
      | Some idxs, Some vals =>
          let grad := decode n (data p) idxs vals in
          let r := trial state_dict step rest (<[n := grad]> temp_grad) in
          ((n, set_data p (sub_ (data p) (tensor_sign grad) step)) :: r.1, r.2)
      | _, _ =>
          let r := trial state_dict step rest temp_grad in
          ((n, p) :: r.1, r.2)
      end
  end.

(** The revert: [temp_grad[n]] is looked up for every parameter of the model;
    the values of [temp_grad] are tensors, so [is not None] holds whenever
    the lookup succeeds. *)
Fixpoint revert (temp_grad : gmap string tensor) (step : Qc)
    (params : list (string * parameter)) : result (list (string * parameter)) :=
  match params with
  | [] => Ok []
  | (n, p) :: rest =>
      match temp_grad !! n with
      | None => Raise (KeyError n)
      | Some g =>
          rest' <- revert temp_grad step rest;;
          Ok ((n, set_data p (add_ (data p) (tensor_sign g) step)) :: rest')
      end
  end.

(** What the trial does to one parameter. *)
Definition trial_param (state_dict : gmap string blob) (step : Qc)
    (np : string * parameter) : string * parameter :=
  match state_dict !! (np.1 +:+ "idxs"), state_dict !! (np.1 +:+ "vals") with
  | Some idxs, Some vals =>
      (np.1, set_data np.2
               (sub_ (data np.2) (tensor_sign (decode np.1 (data np.2) idxs vals)) step))
  | _, _ => np
  end.

(** What the revert does to one parameter whose gradient is in [temp_grad]. *)
Definition revert_param (temp_grad : gmap string tensor) (step : Qc)
    (np : string * parameter) : string * parameter :=
  (np.1, set_data np.2
           (add_ (data np.2) (tensor_sign (default ([] : tensor) (temp_grad !! np.1)))
              step)).

(** The body of [for eval_uid in self.peers] from [state_dict =
    eval_result[eval_uid]] on; the same text in both passes, except that only
    the first one starts with [temp_grad = {}]. *)
Definition evaluate (temp_grad : gmap string tensor) (model model_copy : nn_module)
    (lr : Qc) (state_dict : gmap string blob) (ld : loader) : result evaluation :=
  let model_copy := zero_grad (train model_copy) in
  let loss_before_per_batch := loss_per_batch model (first_walk ld) in
  let step := lr * Q2Qc (25 # 100) in
  let r := trial state_dict step (named_parameters model) temp_grad in
  let model := set_parameters model r.1 in
  let temp_grad := r.2 in
  let loss_after := loss_loop model 0 (second_walk ld) 0 0 in
  params <- revert temp_grad step (named_parameters model);;
  let model := set_parameters model params in
  let loss_after_per_batch := per_batch loss_after.1 loss_after.2 in
  imp <- improvement loss_after_per_batch loss_before_per_batch;;
  Ok {| ev_model := model; ev_model_copy := model_copy; ev_temp_grad := temp_grad;
        ev_loss_before := loss_before_per_batch;
        ev_loss_after := loss_after_per_batch;
        ev_improvement := imp |}.

(** One peer of a pass.  [fresh] tells whether the pass starts the peer's
    evaluation with [temp_grad = {}] (the pass on the peer's own data) or with
    the dictionary the previous evaluation left (the pass on other data). *)
Definition eval_step (fresh : bool) (load : Z -> loader) (lr : Qc)
    (eval_result : gmap Z (option (gmap string blob)))
    (eval_uid : Z) (s : pass_state) : result pass_state :=
  match eval_result !! eval_uid with
  | None => Raise (KeyError (pretty eval_uid))
  | Some None => Ok s
  | Some (Some state_dict) =>
      ev <- evaluate (if fresh then ∅ else ps_temp_grad s)
              (ps_model s) (ps_model_copy s) lr state_dict (load eval_uid);;
      Ok {| ps_model := ev_model ev; ps_model_copy := ev_model_copy ev;
            ps_temp_grad := ev_temp_grad ev;
            ps_improvement := <[eval_uid := ev_improvement ev]> (ps_improvement s) |}
  end.

(** The first pass computes [loss_improvement]. *)
Definition own_pass (io : window_io) (lr : Qc)
    (eval_result : gmap Z (option (gmap string blob)))
    (peers : list Z) (s : pass_state) : result pass_state :=
  for_each (eval_step true (own_loader io) lr eval_result) peers s.

(** The second pass computes [loss_improvement_other]. *)
Definition other_pass (io : window_io) (lr : Qc)
    (eval_result : gmap Z (option (gmap string blob)))
    (peers : list Z) (s : pass_state) : result pass_state :=
  for_each (eval_step false (other_loader io) lr eval_result) peers s.

(** The means logged to wandb: [sum(weight_norms) / len(weight_norms)] and
    [sum(momentum_norms) / len(momentum_norms)], with one norm per parameter. *)
Definition log_metrics (model : nn_module) : result unit :=
  if decide (length (named_parameters model) = 0%nat) then Raise ZeroDivisionError
  else Ok ().

(** Decompress the gathered state and set the sign of the recomputed gradient
    as [p.grad]; a parameter with no gathered data keeps its [grad]. *)
Definition apply_gathered (state_dict : gmap string gathered)
    (params : list (string * parameter)) : list (string * parameter) :=
  (fun np : string * parameter =>
     match state_dict !! (np.1 +:+ "idxs"), state_dict !! (np.1 +:+ "vals") with
     | Some idxs, Some vals =>
         let new_grad := batch_decode np.1 (data np.2) (as_list idxs) (as_list vals) in
         (np.1, set_grad np.2 (Some (tensor_sign new_grad)))
     | _, _ => np
     end) <$> params.

(** [self.optimizer.step()] of plain SGD: parameters without a gradient are
    left alone. *)
Definition optimizer_step (lr : Qc) (params : list (string * parameter))
    : list (string * parameter) :=
  (fun np : string * parameter =>
     match grad np.2 with
     | Some g => (np.1, set_data np.2 (sub_ (data np.2) g lr))
     | None => np
     end) <$> params.

(** One turn of the second [while True] of [run].  The first pass starts with
    [temp_grad] not yet assigned; the empty dictionary stands for it, and it
    is read only after an evaluation of the first pass has assigned it. *)
Definition run_window (io : window_io) (st : miner) : result window_out :=
  let model_copy := deepcopy (model st) in
  let peers :=
    if decide (uid st ∈ peers st) then list_remove (uid st) (peers st) else peers st in
  let lr := lr_schedule (last_epoch st) in
  let eval_result := fetch_all io peers in
  s1 <- own_pass io lr eval_result peers
          {| ps_model := model st; ps_model_copy := model_copy;
             ps_temp_grad := ∅; ps_improvement := ∅ |};;
  let model_copy := deepcopy (ps_model s1) in
  s2 <- other_pass io lr eval_result peers
          {| ps_model := ps_model s1; ps_model_copy := model_copy;
             ps_temp_grad := ps_temp_grad s1; ps_improvement := ∅ |};;
  let avg :=
    update_moving_avg (ps_improvement s1) (ps_improvement s2)
      (loss_improvement_moving_avg st) in
  _ <- log_metrics (ps_model s2);;
  let params := apply_gathered (gather_result io) (named_parameters (ps_model s2)) in
  let params := optimizer_step lr params in
  Ok {| after :=
          {| uid := uid st; peers := peers;
             model := set_parameters (ps_model s2) params;
             last_epoch := S (last_epoch st);
             current_window := current_window st;
             sync_window := sync_window st + 1;
             global_step := global_step st + 1;
             window_step := window_step st + 1;
             loss_improvement_moving_avg := avg |};
        loss_improvement := ps_improvement s1;
        loss_improvement_other := ps_improvement s2 |}.

(** The second [while True] of [run], for as many turns as there are answers. *)
Fixpoint window_loop (ios : list window_io) (st : miner) : result miner :=
  match ios with
  | [] => Ok st
  | io :: rest => out <- run_window io st;; window_loop rest (after out)
  end.

(** [run] after the checkpoint is loaded: the wait for the end of the window
    the miner started in, then the windows.  [None]: still waiting. *)
Definition run (reads : list Z) (ios : list window_io) (st : miner)
    : option (result miner) :=
  match wait_exhausted (sync_window st) reads with
  | None => None
  | Some _ => Some (window_loop ios st)
  end.

End Miner.

(** [self.current_window = w], the only write of the block listener that the
    loop of [run] can see. *)
Definition set_current_window (w : Z) (st : miner) : miner :=
  {| uid := uid st; peers := peers st; model := model st;
     last_epoch := last_epoch st; current_window := w;
     sync_window := sync_window st; global_step := global_step st;
     window_step := window_step st;
     loss_improvement_moving_avg := loss_improvement_moving_avg st |}.

(** The handler of [block_listener]. *)
Definition handler (blocks_per_window : Z) (number : Z) (st : miner) : miner :=
  if decide (window_of number blocks_per_window ≠ current_window st)
  then set_current_window (window_of number blocks_per_window) st
  else st.

(** ** The constructor and what the properties of a window are stated with *)

(** [self.comms.peers] when [--peers] was not given, [self.config.peers]
    otherwise. *)
Definition configured_peers (config_peers comms_peers : list Z) : list Z :=
  match config_peers with
  | [] => comms_peers
  | _ :: _ => config_peers
  end.

(** ... followed by [if self.uid not in self.peers: self.peers.append(self.uid)]. *)
Definition init_peers (config_peers comms_peers : list Z) (uid : Z) : list Z :=
  let peers := configured_peers config_peers comms_peers in
  if decide (uid ∈ peers) then peers else peers ++ [uid].

(** What [__init__] sets up of the state of [run] in local mode, where the uid
    is [--local_uid]: the peers, the window of the current block in
    [current_window] and in [sync_window], the counters at 0; the model comes
    from the hyperparameters and the scheduler has not stepped. *)
Definition init (local_uid : Z) (config_peers comms_peers : list Z)
    (model : nn_module) (block blocks_per_window : Z) : miner :=
  {| uid := local_uid;
     peers := init_peers config_peers comms_peers local_uid;
     model := model; last_epoch := 0;
     current_window := window_of block blocks_per_window;
     sync_window := window_of block blocks_per_window;
     global_step := 0; window_step := 0;
     loss_improvement_moving_avg := ∅ |}.

(** A value of [torch.sign]. *)
Definition is_sign (x : Qc) : Prop := x = 1 \/ x = - 1 \/ x = 0.

#[global] Instance is_sign_dec (x : Qc) : Decision (is_sign x).
Proof. unfold is_sign. apply _. Defined.

(** Every [p.grad] that is set holds signs only. *)
Definition sign_grads (params : list (string * parameter)) : Prop :=
  Forall (fun np : string * parameter =>
            match grad np.2 with
            | Some g => Forall is_sign g
            | None => True
            end) params.

#[global] Instance sign_grads_dec (params : list (string * parameter)) :
  Decision (sign_grads params).
Proof.
  unfold sign_grads. apply Forall_dec. intros np. destruct (grad np.2); apply _.
Defined.


(** Every moving average lies within [-1, 1]. *)
Definition scores_bounded (avg : gmap Z Qc) : Prop :=
  map_Forall (fun _ x => - 1 <= x <= 1) avg.

#[global] Instance scores_bounded_dec (avg : gmap Z Qc) : Decision (scores_bounded avg).
Proof. unfold scores_bounded. apply _. Defined.

Section Shapes.
Variable decode : string -> tensor -> blob -> blob -> tensor.

(** The codec decodes every parameter that the state dict has into a tensor
    with as many elements as the parameter. *)
Definition shape_ok (state_dict : gmap string blob)
    (params : list (string * parameter)) : Prop :=
  Forall (fun np : string * parameter =>
            match state_dict !! (np.1 +:+ "idxs"), state_dict !! (np.1 +:+ "vals") with
            | Some idxs, Some vals =>
                length (decode np.1 (data np.2) idxs vals) = length (data np.2)
            | _, _ => True
            end) params.

#[global] Instance shape_ok_dec (state_dict : gmap string blob)
    (params : list (string * parameter)) : Decision (shape_ok state_dict params).
Proof.
  unfold shape_ok. apply Forall_dec. intros np.
  destruct (state_dict !! (np.1 +:+ "idxs")), (state_dict !! (np.1 +:+ "vals")); apply _.
Defined.

(** ... for the state dict of every peer that answered. *)
Definition shapes_ok (io : window_io) (peers : list Z)
    (params : list (string * parameter)) : Prop :=
  Forall (fun u => match get_gradient io u with
                   | Some state_dict => shape_ok state_dict params
                   | None => True
                   end) peers.

#[global] Instance shapes_ok_dec (io : window_io) (peers : list Z)
    (params : list (string * parameter)) : Decision (shapes_ok io peers params).
Proof.
  unfold shapes_ok. apply Forall_dec. intros u. destruct (get_gradient io u); apply _.
Defined.
End Shapes.

(** The name and the gradient of a parameter: what an evaluation does not
    write. *)
Definition meta (np : string * parameter) : string * option tensor := (np.1, grad np.2).

(** The peers of a window: [self.peers] after [if self.uid in self.peers:
    self.peers.remove(self.uid)]. *)
Definition window_peers (st : miner) : list Z :=
  if decide (uid st ∈ peers st) then list_remove (uid st) (peers st) else peers st.

(** ** Decidable equality, to evaluate closed statements *)

#[global] Instance result_eq_dec `{EqDecision A} : EqDecision (result A).
Proof. solve_decision. Defined.
#[global] Instance blob_eq_dec : EqDecision blob.
Proof. solve_decision. Defined.
#[global] Instance parameter_eq_dec : EqDecision parameter.
Proof. solve_decision. Defined.
#[global] Instance nn_module_eq_dec : EqDecision nn_module.
Proof. solve_decision. Defined.
#[global] Instance miner_eq_dec : EqDecision miner.
Proof. solve_decision. Defined.
#[global] Instance evaluation_eq_dec : EqDecision evaluation.
Proof. solve_decision. Defined.
#[global] Instance pass_state_eq_dec : EqDecision pass_state.
Proof. solve_decision. Defined.
#[global] Instance window_out_eq_dec : EqDecision window_out.
Proof. solve_decision. Defined.

(** ** A small model and small collaborators, for closed runs *)

(** The loss is the sum of all the weights. *)
Definition toy_forward (m : nn_module) (b : batch) : Qc :=
  sum_losses (mjoin ((fun np : string * parameter => data np.2) <$> named_parameters m)).

(** The codec hands the values back as the gradient. *)
Definition toy_decode (n : string) (p : tensor) (idxs vals : blob) : tensor :=
  match vals with
  | FloatTensor l => l
  | IntTensor _ => []
  end.

Definition toy_batch_decode (n : string) (p : tensor) (idxs vals : list blob) : tensor :=
  match vals with
  | FloatTensor l :: _ => l
  | _ => []
  end.

(** A constant learning rate of 4, so that the trial step is 1. *)
Definition toy_schedule (epoch : nat) : Qc := Qc_of_Z 4.

Definition weight (x : Z) : parameter := {| data := [Qc_of_Z x]; grad := None |}.

(** One parameter, [w = 2]. *)
Definition toy_model : nn_module :=
  {| named_parameters := [("w"%string, weight 2)]; training := true |}.


Definition toy_miner (m : nn_module) (peers : list Z) (current sync : Z) : miner :=
  {| uid := 0; peers := peers; model := m; last_epoch := 0;
     current_window := current; sync_window := sync;
     global_step := 0; window_step := 0;
     loss_improvement_moving_avg := ∅ |}.

(** A state dict with a gradient of the given value for the named parameters. *)
Definition update_for (ns : list string) (g : Z) : gmap string blob :=
  foldr (fun n sd => <[n +:+ "idxs" := IntTensor [0%Z]]>
                       (<[n +:+ "vals" := FloatTensor [Qc_of_Z g]]> sd)) ∅ ns.

Definition one_batch : list batch := [[[1%Z]]].

Definition toy_loader (before after : list batch) : Z -> loader :=
  fun _ => {| first_walk := before; second_walk := after |}.

(** A window in which the gather returned nothing, [fetch] tells what each
    peer's [get] returned and both loaders yield the given batches. *)
Definition toy_io (fetch : Z -> option (gmap string blob))
    (before after : list batch) : window_io :=
  {| gather_result := ∅; get_gradient := fetch;
     own_loader := toy_loader before after;
     other_loader := toy_loader before after |}.

Definition toy_run_window : window_io -> miner -> result window_out :=
  run_window toy_forward toy_decode toy_batch_decode toy_schedule.

Definition toy_evaluate (temp_grad : gmap string tensor) (model model_copy : nn_module)
    (state_dict : gmap string blob) (ld : loader) : result evaluation :=
  evaluate toy_forward toy_decode temp_grad model model_copy (Qc_of_Z 4) state_dict ld.


(** The peers' answers to [get], from a table. *)
Definition answers (table : gmap Z (gmap string blob)) : Z -> option (gmap string blob) :=
  fun eval_uid => table !! eval_uid.

Definition toy_window_loop : list window_io -> miner -> result miner :=
  window_loop toy_forward toy_decode toy_batch_decode toy_schedule.

Definition toy_run : list Z -> list window_io -> miner -> option (result miner) :=
  run toy_forward toy_decode toy_batch_decode toy_schedule.


(** What the evaluation of the update [w: 3] leaves on [toy_model]: the loss
    goes from 2 to 1 under the trial step of 1. *)
Definition toy_evaluation : evaluation :=
  {| ev_model := toy_model; ev_model_copy := zero_grad (train toy_model);
     ev_temp_grad := {[ "w"%string := [Qc_of_Z 3] ]};
     ev_loss_before := Qc_of_Z 2; ev_loss_after := Qc_of_Z 1;
     ev_improvement := Qc_of_Z 50 |}.




(** No peer answers and the gather is empty. *)
Definition quiet_io : window_io := toy_io (fun _ => None) one_batch one_batch.


(** The miner on [toy_model] with peer 1 after the given number of windows
    in which nothing was evaluated nor gathered. *)
Definition after_quiet_windows (n : nat) (current sync : Z) : miner :=
  {| uid := 0; peers := [1%Z]; model := toy_model; last_epoch := n;
     current_window := current; sync_window := sync + Z.of_nat n;
     global_step := Z.of_nat n; window_step := Z.of_nat n;
     loss_improvement_moving_avg := ∅ |}.

Definition quiet_out (n : nat) (current sync : Z) : window_out :=
  {| after := after_quiet_windows n current sync;
     loss_improvement := ∅; loss_improvement_other := ∅ |}.

(** Peer 1 answers with an update for [w]; the gather brings the gradient
    [-2] for [w]. *)
Definition gather_io : window_io :=
  {| gather_result :=
       {[ "widxs"%string := One (IntTensor [0%Z]);
          "wvals"%string := Many [FloatTensor [Qc_of_Z (-2)]] ]};
     get_gradient := answers {[ 1%Z := update_for ["w"%string] 3 ]};
     own_loader := toy_loader one_batch one_batch;
     other_loader := toy_loader one_batch one_batch |}.

(** [toy_model] after a step of size 4 on the gradient sign [-1]. *)
Definition stepped_model (w : Z) : nn_module :=
  {| named_parameters :=
       [("w"%string, {| data := [Qc_of_Z w]; grad := Some [Qc_of_Z (-1)] |})];
     training := true |}.

(** What the window on [gather_io] leaves, started by [toy_miner] on
    [toy_model] with peers 1, 2 and itself. *)
Definition gather_out (current sync : Z) : window_out :=
  {| after :=
       {| uid := 0; peers := [1%Z; 2%Z]; model := stepped_model 6; last_epoch := 1;
          current_window := current; sync_window := sync + 1;
          global_step := 1; window_step := 1;
          loss_improvement_moving_avg := {[ 1%Z := Q2Qc (-1 # 20) ]} |};
     loss_improvement := {[ 1%Z := Qc_of_Z 50 ]};
     loss_improvement_other := {[ 1%Z := Qc_of_Z 50 ]} |}.

(** ... and what a window on [quiet_io] leaves after that one. *)
Definition gather_then_quiet_out : window_out :=
  {| after :=
       {| uid := 0; peers := [1%Z; 2%Z]; model := stepped_model 10; last_epoch := 2;
          current_window := 5; sync_window := 6; global_step := 2; window_step := 2;
          loss_improvement_moving_avg := {[ 1%Z := Q2Qc (-1 # 20) ]} |};
     loss_improvement := ∅;
     loss_improvement_other := ∅ |}.

(** ** Arithmetic on canonical rationals *)

(** Moves an order or an equation on [Qc] to [Q]; [lra] or [nra] finishes. *)
Ltac qc_to_q :=
  try apply Qc_is_canon;
  unfold Qcle, Qclt in *; cbn in *;
  repeat match goal with
  | H : context [Qred _] |- _ => rewrite !Qred_correct in H
  | H : context [inject_Z (Zpos ?p)] |- _ =>
      change (inject_Z (Zpos p)) with (Zpos p # 1)%Q in H
  | H : context [inject_Z (Zneg ?p)] |- _ =>
      change (inject_Z (Zneg p)) with (Zneg p # 1)%Q in H
  | H : context [inject_Z Z0] |- _ => change (inject_Z Z0) with (0 # 1)%Q in H
  | |- context [inject_Z (Zpos ?p)] =>
      change (inject_Z (Zpos p)) with (Zpos p # 1)%Q
  | |- context [inject_Z (Zneg ?p)] =>
      change (inject_Z (Zneg p)) with (Zneg p # 1)%Q
  | |- context [inject_Z Z0] => change (inject_Z Z0) with (0 # 1)%Q
  end;
  rewrite ?Qred_correct.

Ltac qc_lra := qc_to_q; lra.
Ltac qc_nra := qc_to_q; nra.

(** * The binary signal *)

Lemma binary_value_better_own (own other : Qc) :
  other < own -> binary_value own other = 1%Z.
Proof. intros H. unfold binary_value. by rewrite decide_True. Qed.

Lemma binary_value_not_better_own (own other : Qc) :
  own <= other -> binary_value own other = (-1)%Z.
Proof.
  intros H. unfold binary_value. rewrite decide_False; [done|].
  by apply Qcle_not_lt.
Qed.

(** C2, as the code has it: the binary value fed into the moving average is
    +1 exactly when the improvement on the peer's own data is strictly greater
    than the improvement on other data, and -1 otherwise, that is exactly
    when the own-data improvement is at most the other one; on a tie it is
    -1. *)
Theorem binary_value_strict (own other : Qc) :
  (binary_value own other = 1%Z <-> other < own) /\
  (binary_value own other = (-1)%Z <-> own <= other).
Proof.
  unfold binary_value. destruct (decide (other < own)) as [Hlt|Hge].
  - split; split; try done.
    intros Hle. by apply Qcle_not_lt in Hle.
  - split; split; try done.
    intros _. by apply Qcnot_lt_le.
Qed.

Lemma binary_value_strict_witness :
  binary_value (Qc_of_Z 2) (Qc_of_Z 1) = 1%Z /\
  binary_value (Qc_of_Z 1) (Qc_of_Z 2) = (-1)%Z /\
  binary_value (Qc_of_Z 2) (Qc_of_Z 2) = (-1)%Z.
Proof.
  split; [|split].
  - apply (proj1 (binary_value_strict (Qc_of_Z 2) (Qc_of_Z 1))). by vm_compute.
  - apply (proj2 (binary_value_strict (Qc_of_Z 1) (Qc_of_Z 2))).
    unfold Qcle. vm_compute. discriminate.
  - apply (proj2 (binary_value_strict (Qc_of_Z 2) (Qc_of_Z 2))).
    unfold Qcle. vm_compute. discriminate.
Defined.

(** C2, as the specification states it, fails on a tie: with equal
    improvements the own-data improvement is not worse than the other one,
    and the binary value is -1, not +1. *)
Lemma binary_value_tie_counterexample :
  Qc_of_Z 3 <= Qc_of_Z 3 /\ binary_value (Qc_of_Z 3) (Qc_of_Z 3) <> 1%Z.
Proof. split; [apply Qcle_refl | by vm_compute]. Qed.

(** * The moving average *)

Lemma update_moving_avg_lookup (li lio avg : gmap Z Qc) (u : Z) :
  update_moving_avg li lio avg !! u =
    match li !! u, lio !! u with
    | Some own, Some other =>
        Some (moving_avg (prev_avg avg u) (binary_value own other))
    | _, _ => avg !! u
    end.
Proof.
  unfold update_moving_avg. revert u.
  apply (map_fold_weak_ind
    (fun (r : gmap Z Qc) (m : gmap Z Qc) => forall u,
       r !! u = match m !! u, lio !! u with
                | Some own, Some other =>
                    Some (moving_avg (prev_avg avg u) (binary_value own other))
                | _, _ => avg !! u
                end)).
  - intros u. by rewrite lookup_empty.
  - intros i own m r Hfresh IH u. unfold update_one.
    destruct (decide (u = i)) as [->|Hne].
    + rewrite lookup_insert_eq. pose proof (IH i) as Hi. rewrite Hfresh in Hi.
      destruct (lio !! i) as [other|] eqn:Hother.
      * rewrite lookup_insert_eq. unfold prev_avg. by rewrite Hi.
      * done.
    + rewrite (lookup_insert_ne m) by done.
      destruct (lio !! i) as [other|].
      * rewrite lookup_insert_ne by done. apply IH.
      * apply IH.
Qed.

(** C4: a peer that has both improvements gets the score
    [(1 - alpha) * prev + alpha * signal] with [alpha = 0.05], where [prev] is
    its stored score, or 0 when it has none; from 0 and a signal of +1 the
    score is exactly 0.05. *)
Theorem moving_avg_update_rule (li lio avg : gmap Z Qc) (u : Z) (own other : Qc) :
  li !! u = Some own ->
  lio !! u = Some other ->
  update_moving_avg li lio avg !! u =
    Some ((1 - Q2Qc (5 # 100)) * default 0 (avg !! u)
          + Q2Qc (5 # 100) * Qc_of_Z (binary_value own other))
  /\ moving_avg 0 1 = Q2Qc (5 # 100).
Proof.
  intros Hown Hother. split.
  - rewrite update_moving_avg_lookup, Hown, Hother. done.
  - apply Qc_is_canon. reflexivity.
Qed.

Lemma moving_avg_update_rule_witness :
  update_moving_avg {[ 7%Z := Qc_of_Z 2 ]} {[ 7%Z := Qc_of_Z 1 ]} ∅ !! 7%Z =
    Some ((1 - Q2Qc (5 # 100)) * default 0 ((∅ : gmap Z Qc) !! 7%Z)
          + Q2Qc (5 # 100) * Qc_of_Z (binary_value (Qc_of_Z 2) (Qc_of_Z 1)))
  /\ moving_avg 0 1 = Q2Qc (5 # 100).
Proof.
  apply (moving_avg_update_rule {[ 7%Z := Qc_of_Z 2 ]} {[ 7%Z := Qc_of_Z 1 ]} ∅ 7
           (Qc_of_Z 2) (Qc_of_Z 1)); reflexivity.
Defined.

(** * Bounds and convergence of the score *)

Lemma moving_avg_bounds (x : Qc) (s : Z) :
  binary s -> - 1 <= x <= 1 -> - 1 <= moving_avg x s <= 1.
Proof.
  intros [-> | ->] [Hlo Hhi]; unfold moving_avg; split; qc_lra.
Qed.












(** * The trial evaluation of one peer *)

Section Evaluation.

Variable forward : nn_module -> batch -> Qc.
Variable decode : string -> tensor -> blob -> blob -> tensor.



Lemma loss_per_batch_nil (m : nn_module) : loss_per_batch forward m [] = 0.
Proof. reflexivity. Qed.

Lemma trial_fst (sd : gmap string blob) (step : Qc) (ps : list (string * parameter))
    (tg : gmap string tensor) :
  (trial decode sd step ps tg).1 = trial_param decode sd step <$> ps.
Proof.
  revert tg. induction ps as [|[n p] rest IH]; intros tg; [done|].
  cbn [trial fmap list_fmap]. unfold trial_param at 1. cbn [fst snd].
  destruct (sd !! (n +:+ "idxs")) as [idxs|], (sd !! (n +:+ "vals")) as [vals|];
    cbn [fst]; by rewrite IH.
Qed.


Lemma trial_snd_omitted (sd : gmap string blob) (step : Qc) (ps : list (string * parameter))
    (tg : gmap string tensor) (n : string) :
  ~ covered sd n -> (trial decode sd step ps tg).2 !! n = tg !! n.
Proof.
  intros Hom. revert tg. induction ps as [|[k p] rest IH]; intros tg; [done|].
  cbn [trial].
  destruct (sd !! (k +:+ "idxs")) as [idxs|] eqn:Hi;
    destruct (sd !! (k +:+ "vals")) as [vals|] eqn:Hv; cbn [snd]; rewrite ?IH; try done.
  apply lookup_insert_ne. intros ->. apply Hom. split; by eexists.
Qed.

Lemma trial_snd_mono (sd : gmap string blob) (step : Qc) (ps : list (string * parameter))
    (tg : gmap string tensor) (n : string) :
  is_Some (tg !! n) -> is_Some ((trial decode sd step ps tg).2 !! n).
Proof.
  revert tg. induction ps as [|[k p] rest IH]; intros tg Htg; [done|].
  cbn [trial].
  destruct (sd !! (k +:+ "idxs")) as [idxs|], (sd !! (k +:+ "vals")) as [vals|];
    cbn [snd]; apply IH; try done.
  destruct (decide (k = n)) as [->|Hne].
  - rewrite lookup_insert_eq. by eexists.
  - by rewrite lookup_insert_ne.
Qed.

Lemma trial_snd_covered (sd : gmap string blob) (step : Qc) (ps : list (string * parameter))
    (tg : gmap string tensor) (n : string) :
  n ∈ names ps -> covered sd n -> is_Some ((trial decode sd step ps tg).2 !! n).
Proof.
  intros Hin [[idxs Hi] [vals Hv]]. revert tg Hin.
  induction ps as [|[k p] rest IH]; intros tg Hin.
  - by apply elem_of_nil in Hin.
  - cbn [names fmap list_fmap fst] in Hin. apply elem_of_cons in Hin as [->|Hin].
    + cbn [trial]. rewrite Hi, Hv. cbn [snd]. apply trial_snd_mono.
      rewrite lookup_insert_eq. by eexists.
    + cbn [trial].
      destruct (sd !! (k +:+ "idxs")), (sd !! (k +:+ "vals")); cbn [snd]; by apply IH.
Qed.


Lemma revert_Ok (tg : gmap string tensor) (step : Qc) (ps : list (string * parameter)) :
  (forall n, n ∈ names ps -> is_Some (tg !! n)) ->
  revert tg step ps = Ok (revert_param tg step <$> ps).
Proof.
  induction ps as [|[n p] rest IH]; intros Hall; [done|].
  cbn [revert]. destruct (Hall n) as [g Hg]; [apply elem_of_cons; by left|].
  rewrite Hg, IH.
  - cbn [bind fmap list_fmap]. do 2 f_equal.
    unfold revert_param. cbn [fst snd]. by rewrite Hg.
  - intros k Hk. apply Hall. apply elem_of_cons. by right.
Qed.

Lemma revert_Raise (tg : gmap string tensor) (step : Qc) (ps : list (string * parameter))
    (n : string) :
  n ∈ names ps -> tg !! n = None ->
  exists k, revert tg step ps = Raise (KeyError k) /\ k ∈ names ps /\ tg !! k = None.
Proof.
  induction ps as [|[k p] rest IH]; intros Hin Hn.
  - by apply elem_of_nil in Hin.
  - cbn [revert]. destruct (tg !! k) as [g|] eqn:Hk.
    + cbn [names fmap list_fmap fst] in Hin.
      apply elem_of_cons in Hin as [->|Hin]; [congruence|].
      destruct (IH Hin Hn) as (k' & -> & Hk' & Hnone).
      exists k'. split; [done|]. split; [apply elem_of_cons; by right|done].
    + exists k. split; [done|]. split; [apply elem_of_cons; by left|done].
Qed.

Lemma names_fmap (f : string * parameter -> string * parameter)
    (ps : list (string * parameter)) :
  (forall np, (f np).1 = np.1) -> names (f <$> ps) = names ps.
Proof.
  intros Hf. unfold names. rewrite <- list_fmap_compose.
  apply list_fmap_ext. intros i np _. apply Hf.
Qed.

Lemma trial_param_name (sd : gmap string blob) (step : Qc) (np : string * parameter) : (trial_param decode sd step np).1 = np.1.
Proof.
  unfold trial_param.
  by destruct (sd !! (np.1 +:+ "idxs")), (sd !! (np.1 +:+ "vals")).
Qed.


Lemma trial_empty (step : Qc) (ps : list (string * parameter)) (tg : gmap string tensor) :
  trial decode ∅ step ps tg = (ps, tg).
Proof.
  revert tg. induction ps as [|[n p] rest IH]; intros tg; [done|].
  cbn [trial]. rewrite lookup_empty, IH. done.
Qed.

(** The result of an evaluation whose revert finds a gradient for every
    parameter and whose loss before the trial is not zero. *)
Lemma evaluate_Ok (tg : gmap string tensor) (model copy : nn_module) (lr : Qc)
    (sd : gmap string blob) (ld : loader) :
  let step := lr * Q2Qc (25 # 100) in
  let r := trial decode sd step (named_parameters model) tg in
  let before := loss_per_batch forward model (first_walk ld) in
  let after := loss_per_batch forward (set_parameters model r.1) (second_walk ld) in
  (forall k, k ∈ names (named_parameters model) -> covered sd k \/ is_Some (tg !! k)) ->
  before <> 0 ->
  evaluate forward decode tg model copy lr sd ld =
    Ok {| ev_model := set_parameters model (revert_param r.2 step <$> r.1);
          ev_model_copy := zero_grad (train copy);
          ev_temp_grad := r.2;
          ev_loss_before := before;
          ev_loss_after := after;
          ev_improvement := Qc_of_Z 100 * (1 - after / before) |}.
Proof.
  intros step r before after Hall Hbefore. unfold evaluate.
  fold step. fold r. cbn [named_parameters set_parameters].
  rewrite revert_Ok.
  - cbn [bind]. fold before. unfold improvement.
    rewrite decide_False by done. done.
  - intros k Hk. unfold r in *. rewrite trial_fst in Hk.
    rewrite names_fmap in Hk by apply trial_param_name.
    destruct (Hall k Hk) as [Hcov|Htg].
    + by apply trial_snd_covered.
    + by apply trial_snd_mono.
Qed.

(** An evaluation whose revert misses a parameter in [temp_grad] ends in a
    [KeyError]. *)
Lemma evaluate_KeyError (tg : gmap string tensor) (model copy : nn_module) (lr : Qc)
    (sd : gmap string blob) (ld : loader) (n : string) :
  n ∈ names (named_parameters model) -> ~ covered sd n -> tg !! n = None ->
  exists k, evaluate forward decode tg model copy lr sd ld = Raise (KeyError k)
            /\ k ∈ names (named_parameters model)
            /\ ~ covered sd k /\ tg !! k = None.
Proof.
  intros Hin Hom Hnone. unfold evaluate. cbn [named_parameters set_parameters].
  set (step := lr * Q2Qc (25 # 100)).
  set (r := trial decode sd step (named_parameters model) tg).
  destruct (revert_Raise r.2 step r.1 n) as (k & Hraise & Hk & Hknone).
  - unfold r. rewrite trial_fst, names_fmap; [done|apply trial_param_name].
  - unfold r. by rewrite trial_snd_omitted.
  - exists k. rewrite Hraise. split; [done|].
    unfold r in Hk, Hknone. rewrite trial_fst, names_fmap in Hk by apply trial_param_name.
    split; [done|].
    assert (~ is_Some ((trial decode sd step (named_parameters model) tg).2 !! k)) as Hno.
    { rewrite Hknone. by intros [? ?]. }
    split.
    + intros Hcov. apply Hno. by apply trial_snd_covered.
    + destruct (tg !! k) as [g|] eqn:Hg; [|done].
      exfalso. apply Hno. apply trial_snd_mono. rewrite Hg. by eexists.
Qed.


Lemma improvement_zero_before (loss_after_per_batch : Qc) :
  improvement loss_after_per_batch 0 = Raise ZeroDivisionError.
Proof. unfold improvement. by rewrite decide_True. Qed.

Lemma improvement_nonzero (loss_after_per_batch loss_before_per_batch : Qc) :
  loss_before_per_batch <> 0 ->
  improvement loss_after_per_batch loss_before_per_batch =
    Ok (Qc_of_Z 100 * (1 - loss_after_per_batch / loss_before_per_batch)).
Proof. intros H. unfold improvement. by rewrite decide_False. Qed.



(** C1, on the input where the code departs from it: the own-data evaluation
    of an update with no entries does not leave the model as it was and
    return two equal losses; on every model that has a parameter, the revert
    looks up the first parameter in the empty [temp_grad] and the evaluation
    ends in [KeyError] on that name. *)
Theorem evaluate_empty_update_raises (model copy : nn_module) (lr : Qc) (ld : loader)
    (n : string) (p : parameter) (rest : list (string * parameter)) :
  named_parameters model = (n, p) :: rest ->
  evaluate forward decode ∅ model copy lr ∅ ld = Raise (KeyError n).
Proof.
  intros Hps. unfold evaluate. rewrite trial_empty.
  cbn [fst snd named_parameters set_parameters]. rewrite Hps.
  cbn [revert]. by rewrite lookup_empty.
Qed.

(** C3, on the input where the code departs from it: when the loader yields no
    batch, [loss_before_per_batch] is 0 and, the revert having found every
    parameter, the evaluation ends in [ZeroDivisionError]; the improvement is
    not 0.  The division of [improvement] is not guarded for any
    [loss_after_per_batch]. *)
Theorem improvement_division_unguarded (tg : gmap string tensor)
    (model copy : nn_module) (lr : Qc) (sd : gmap string blob) (ld : loader) :
  first_walk ld = [] ->
  revertible sd tg (names (named_parameters model)) ->
  evaluate forward decode tg model copy lr sd ld = Raise ZeroDivisionError /\
  (forall loss_after_per_batch, improvement loss_after_per_batch 0 = Raise ZeroDivisionError).
Proof.
  intros Hnone Hall. split; [|apply improvement_zero_before].
  unfold revertible in Hall. rewrite Forall_forall in Hall.
  unfold evaluate. cbn [named_parameters set_parameters].
  rewrite revert_Ok.
  - cbn [bind]. rewrite Hnone, loss_per_batch_nil, improvement_zero_before. done.
  - intros k Hk. rewrite trial_fst in Hk.
    rewrite names_fmap in Hk by apply trial_param_name.
    destruct (Hall k Hk) as [Hcov|Htg].
    + by apply trial_snd_covered.
    + by apply trial_snd_mono.
Qed.







(** ** When the trial is undone exactly *)

Lemma add_sub_cancel (p s : tensor) (a : Qc) :
  (length p <= length s)%nat -> add_ (sub_ p s a) s a = p.
Proof.
  unfold add_, sub_. revert s. induction p as [|x p IH]; intros [|y s] Hlen;
    cbn in *; try done; try lia.
  f_equal; [ring|]. apply IH. lia.
Qed.

Lemma trial_snd_fresh (sd : gmap string blob) (step : Qc) (ps : list (string * parameter))
    (tg : gmap string tensor) (n : string) :
  n ∉ names ps -> (trial decode sd step ps tg).2 !! n = tg !! n.
Proof.
  revert tg. induction ps as [|[k p] rest IH]; intros tg Hn; [done|].
  cbn [names fmap list_fmap fst] in Hn. apply not_elem_of_cons in Hn as [Hne Hn].
  cbn [trial].
  destruct (sd !! (k +:+ "idxs")) as [idxs|], (sd !! (k +:+ "vals")) as [vals|];
    cbn [snd]; rewrite IH by done; try done.
  by apply lookup_insert_ne.
Qed.

Lemma trial_snd_decoded (sd : gmap string blob) (step : Qc)
    (ps : list (string * parameter)) (tg : gmap string tensor)
    (n : string) (p : parameter) (idxs vals : blob) :
  NoDup (names ps) -> (n, p) ∈ ps ->
  sd !! (n +:+ "idxs") = Some idxs -> sd !! (n +:+ "vals") = Some vals ->
  (trial decode sd step ps tg).2 !! n = Some (decode n (data p) idxs vals).
Proof.
  intros Hnodup Hin Hi Hv. revert tg Hnodup Hin.
  induction ps as [|[k q] rest IH]; intros tg Hnodup Hin.
  - by apply elem_of_nil in Hin.
  - cbn [names fmap list_fmap fst] in Hnodup. apply NoDup_cons in Hnodup as [Hk Hnodup].
    apply elem_of_cons in Hin as [[= <- <-]|Hin].
    + cbn [trial]. rewrite Hi, Hv. cbn [snd].
      rewrite trial_snd_fresh by done. apply lookup_insert_eq.
    + cbn [trial].
      destruct (sd !! (k +:+ "idxs")), (sd !! (k +:+ "vals")); cbn [snd]; by apply IH.
Qed.

(** In exact arithmetic the revert cancels the trial: when the update brings a
    gradient of the parameter's shape for every parameter, an evaluation that
    completes leaves the model as it found it. *)
Lemma evaluate_restores (tg : gmap string tensor) (model copy : nn_module) (lr : Qc)
    (sd : gmap string blob) (ld : loader) (ev : evaluation) :
  NoDup (names (named_parameters model)) ->
  Forall (covered sd) (names (named_parameters model)) ->
  (forall n p idxs vals, length (decode n p idxs vals) = length p) ->
  evaluate forward decode tg model copy lr sd ld = Ok ev ->
  ev_model ev = model.
Proof.
  intros Hnodup Hcov Hshape. unfold evaluate.
  cbn [named_parameters set_parameters].
  set (step := lr * Q2Qc (25 # 100)).
  set (r := trial decode sd step (named_parameters model) tg).
  rewrite revert_Ok.
  2:{ intros k Hk. unfold r in *. rewrite trial_fst in Hk.
      rewrite names_fmap in Hk by apply trial_param_name.
      rewrite Forall_forall in Hcov. apply trial_snd_covered; auto. }
  cbn [bind]. destruct (improvement _ _) as [imp|e]; cbn [bind]; [|done].
  intros [= <-]. cbn [ev_model]. destruct model as [ps tr].
  unfold set_parameters. cbn [named_parameters training] in *. f_equal.
  unfold r. rewrite trial_fst, <- list_fmap_compose.
  rewrite <- (list_fmap_id ps) at 3. apply list_fmap_ext. intros i [n p] Hi.
  assert (n ∈ names ps) as Hn.
  { unfold names. apply list_elem_of_fmap. exists (n, p).
    split; [done|]. by apply list_elem_of_lookup_2 in Hi. }
  rewrite Forall_forall in Hcov. destruct (Hcov n Hn) as [[idxs Hidxs] [vals Hvals]].
  cbn [compose id]. unfold trial_param. cbn [fst snd]. rewrite Hidxs, Hvals.
  unfold revert_param. cbn [fst snd set_data data grad].
  rewrite (trial_snd_decoded sd step ps tg n p idxs vals); try done.
  2:{ by apply list_elem_of_lookup_2 in Hi. }
  cbn [default]. destruct p as [d g]. unfold set_data. cbn [data grad id]. do 2 f_equal.
  apply add_sub_cancel. unfold tensor_sign. by rewrite length_fmap, Hshape.
Qed.


(** ** What a completed evaluation tells about the update *)

Lemma revert_names (tg : gmap string tensor) (step : Qc)
    (ps ps' : list (string * parameter)) :
  revert tg step ps = Ok ps' -> names ps' = names ps.
Proof.
  revert ps'. induction ps as [|[n p] rest IH]; intros ps'.
  - cbn. by intros [= <-].
  - cbn [revert]. destruct (tg !! n) as [g|]; [|done].
    destruct (revert tg step rest) as [rest'|e]; cbn [bind]; [|done].
    intros [= <-]. cbn [names fmap list_fmap fst]. f_equal. by apply IH.
Qed.

Lemma evaluate_names (tg : gmap string tensor) (model copy : nn_module) (lr : Qc)
    (sd : gmap string blob) (ld : loader) (ev : evaluation) :
  evaluate forward decode tg model copy lr sd ld = Ok ev ->
  names (named_parameters (ev_model ev)) = names (named_parameters model).
Proof.
  unfold evaluate. cbn [named_parameters set_parameters].
  destruct (revert _ _ _) as [params|e] eqn:Hrevert; [|done]. cbn [bind].
  destruct (improvement _ _) as [imp|e]; [|done]. cbn [bind].
  intros [= <-]. cbn [ev_model named_parameters set_parameters].
  apply revert_names in Hrevert. rewrite Hrevert, trial_fst.
  apply names_fmap, trial_param_name.
Qed.

(** An evaluation that starts from [temp_grad = {}] completes only if the
    update has a gradient for every parameter of the model. *)
Lemma evaluate_fresh_Ok_covered (model copy : nn_module) (lr : Qc)
    (sd : gmap string blob) (ld : loader) (ev : evaluation) :
  evaluate forward decode ∅ model copy lr sd ld = Ok ev ->
  Forall (covered sd) (names (named_parameters model)).
Proof.
  intros Hev. apply Forall_forall. intros n Hn.
  destruct (decide (covered sd n)) as [Hcov|Hom]; [done|].
  destruct (evaluate_KeyError ∅ model copy lr sd ld n Hn Hom (lookup_empty n))
    as (k & Hraise & _).
  congruence.
Qed.

End Evaluation.


Lemma fetch_all_from (io : window_io) (l : list Z)
    (acc : gmap Z (option (gmap string blob))) (u : Z) :
  foldl (fun eval_result eval_uid => <[eval_uid := get_gradient io eval_uid]> eval_result)
        acc l !! u =
    if decide (u ∈ l) then Some (get_gradient io u) else acc !! u.
Proof.
  revert acc. induction l as [|v l IH]; intros acc.
  - rewrite decide_False; [done|]. apply not_elem_of_nil.
  - cbn [foldl]. rewrite IH. destruct (decide (u ∈ l)) as [Hin|Hnin].
    + rewrite decide_True; [done|]. apply elem_of_cons. by right.
    + destruct (decide (u = v)) as [->|Hne].
      * rewrite lookup_insert_eq. rewrite decide_True; [done|]. apply elem_of_cons. by left.
      * rewrite lookup_insert_ne by done. rewrite decide_False; [done|].
        intros Hin. apply elem_of_cons in Hin as [?|?]; done.
Qed.

Lemma fetch_all_lookup (io : window_io) (l : list Z) (u : Z) :
  fetch_all io l !! u = if decide (u ∈ l) then Some (get_gradient io u) else None.
Proof. unfold fetch_all. by rewrite fetch_all_from, lookup_empty. Qed.

Section Window.

Variable forward : nn_module -> batch -> Qc.
Variable decode : string -> tensor -> blob -> blob -> tensor.
Variable batch_decode : string -> tensor -> list blob -> list blob -> tensor.
Variable lr_schedule : nat -> Qc.


Lemma for_each_improvement_frame (fresh : bool) (load : Z -> loader) (lr : Qc)
    (er : gmap Z (option (gmap string blob))) (l : list Z) (s s' : pass_state) (u : Z) :
  (forall sd, er !! u <> Some (Some sd)) ->
  for_each (eval_step forward decode fresh load lr er) l s = Ok s' ->
  ps_improvement s' !! u = ps_improvement s !! u.
Proof.
  intros Hu. revert s. induction l as [|v l IH]; intros s.
  - cbn. by intros [= ->].
  - cbn [for_each]. unfold eval_step at 1.
    destruct (er !! v) as [[sd|]|] eqn:Hv; cbn [bind]; [|by apply IH|done].
    destruct (evaluate _ _ _ _ _ _ _ _) as [ev|e]; cbn [bind]; [|done].
    intros Hrest. apply IH in Hrest. rewrite Hrest. cbn [ps_improvement].
    apply lookup_insert_ne. intros ->. by apply (Hu sd).
Qed.



Lemma optimizer_step_no_grad (lr : Qc) (params : list (string * parameter)) :
  Forall (fun np : string * parameter => grad np.2 = None) params ->
  optimizer_step lr params = params.
Proof.
  intros Hall. unfold optimizer_step. rewrite <- (list_fmap_id params) at 2.
  apply list_fmap_ext. intros i np Hi.
  rewrite Forall_lookup in Hall. by rewrite (Hall i np Hi).
Qed.

Lemma run_window_inv (io : window_io) (st : miner) (out : window_out) :
  run_window forward decode batch_decode lr_schedule io st = Ok out ->
  let peers' :=
    if decide (uid st ∈ peers st) then list_remove (uid st) (peers st) else peers st in
  let lr := lr_schedule (last_epoch st) in
  exists s1 s2,
    own_pass forward decode io lr (fetch_all io peers') peers'
      {| ps_model := model st; ps_model_copy := deepcopy (model st);
         ps_temp_grad := ∅; ps_improvement := ∅ |} = Ok s1 /\
    other_pass forward decode io lr (fetch_all io peers') peers'
      {| ps_model := ps_model s1; ps_model_copy := deepcopy (ps_model s1);
         ps_temp_grad := ps_temp_grad s1; ps_improvement := ∅ |} = Ok s2 /\
    loss_improvement out = ps_improvement s1 /\
    loss_improvement_other out = ps_improvement s2 /\
    sync_window (after out) = (sync_window st + 1)%Z /\
    global_step (after out) = (global_step st + 1)%Z /\
    window_step (after out) = (window_step st + 1)%Z /\
    current_window (after out) = current_window st.
Proof.
  unfold run_window. cbn zeta.
  destruct (own_pass _ _ _ _ _ _ _) as [s1|e] eqn:Hown; cbn [bind]; [|done].
  destruct (other_pass _ _ _ _ _ _ _) as [s2|e] eqn:Hother; cbn [bind]; [|done].
  destruct (log_metrics _) as [[]|e]; cbn [bind]; [|done].
  intros [= <-]. exists s1, s2. by repeat split.
Qed.


(** A pass on own data gets through the peers only if every update it
    evaluates has a gradient for every parameter of the model. *)
Lemma own_pass_Ok_covered (io : window_io) (lr : Qc)
    (er : gmap Z (option (gmap string blob))) (l : list Z) (s s' : pass_state)
    (u : Z) (sd : gmap string blob) :
  own_pass forward decode io lr er l s = Ok s' ->
  u ∈ l -> er !! u = Some (Some sd) ->
  Forall (covered sd) (names (named_parameters (ps_model s))).
Proof.
  unfold own_pass. revert s. induction l as [|v l IH]; intros s Hpass Hu Her.
  - by apply elem_of_nil in Hu.
  - cbn [for_each] in Hpass. unfold eval_step at 1 in Hpass.
    destruct (er !! v) as [[sdv|]|] eqn:Hv; cbn [bind] in Hpass; [| |done].
    + destruct (evaluate _ _ _ _ _ _ _ _) as [ev|e] eqn:Hev; cbn [bind] in Hpass; [|done].
      apply elem_of_cons in Hu as [->|Hu].
      * rewrite Hv in Her. injection Her as ->.
        by apply evaluate_fresh_Ok_covered in Hev.
      * specialize (IH _ Hpass Hu Her). cbn [ps_model] in IH.
        by rewrite (evaluate_names _ _ _ _ _ _ _ _ _ Hev) in IH.
    + apply elem_of_cons in Hu as [->|Hu]; [congruence|]. by apply IH.
Qed.

(** A window completes only if every update that was fetched from a peer has
    a gradient for every parameter of the model: any other update ends [run]
    in the first pass. *)
Lemma run_window_Ok_covered (io : window_io) (st : miner) (out : window_out)
    (u : Z) (sd : gmap string blob) :
  run_window forward decode batch_decode lr_schedule io st = Ok out ->
  u ∈ peers (after out) -> get_gradient io u = Some sd ->
  Forall (covered sd) (names (named_parameters (model st))).
Proof.
  intros Hrun Hu Hget.
  assert (peers (after out) =
          if decide (uid st ∈ peers st) then list_remove (uid st) (peers st)
          else peers st) as Hpeers.
  { revert Hrun. unfold run_window. cbn zeta.
    destruct (own_pass _ _ _ _ _ _ _) as [s1|e]; cbn [bind]; [|done].
    destruct (other_pass _ _ _ _ _ _ _) as [s2|e]; cbn [bind]; [|done].
    destruct (log_metrics _) as [[]|e]; cbn [bind]; [|done].
    by intros [= <-]. }
  apply run_window_inv in Hrun. cbn zeta in Hrun.
  destruct Hrun as (s1 & s2 & Hown & _). rewrite Hpeers in Hu.
  apply (own_pass_Ok_covered _ _ _ _ _ _ u sd Hown Hu).
  rewrite fetch_all_lookup, decide_True by done. by rewrite Hget.
Qed.


Lemma wait_exhausted_spec (sync : Z) (reads rest : list Z) :
  wait_exhausted sync reads = Some rest ->
  exists spun c, reads = spun ++ c :: rest /\ Forall (fun r => r = sync) spun /\ c <> sync.
Proof.
  induction reads as [|r reads IH]; [done|]. cbn [wait_exhausted].
  destruct (decide (r ≠ sync)) as [Hne|Heq].
  - intros [= ->]. by exists [], r.
  - intros Hrest. destruct (IH Hrest) as (spun & c & -> & Hspun & Hc).
    exists (r :: spun), c. split; [done|]. split; [|done].
    constructor; [|done]. by destruct (decide (r = sync)).
Qed.

Lemma run_window_set_current_window (io : window_io) (st : miner) (c : Z) :
  run_window forward decode batch_decode lr_schedule io (set_current_window c st) =
    match run_window forward decode batch_decode lr_schedule io st with
    | Ok out => Ok {| after := set_current_window c (after out);
                      loss_improvement := loss_improvement out;
                      loss_improvement_other := loss_improvement_other out |}
    | Raise e => Raise e
    end.
Proof.
  unfold run_window, set_current_window. cbn.
  destruct (own_pass _ _ _ _ _ _ _) as [s1|e]; cbn [bind]; [|done].
  destruct (other_pass _ _ _ _ _ _ _) as [s2|e]; cbn [bind]; [|done].
  by destruct (log_metrics _) as [[]|e].
Qed.

Lemma window_loop_set_current_window (ios : list window_io) (st st' : miner) (c : Z) :
  window_loop forward decode batch_decode lr_schedule ios st = Ok st' ->
  window_loop forward decode batch_decode lr_schedule ios (set_current_window c st)
    = Ok (set_current_window c st').
Proof.
  revert st. induction ios as [|io ios IH]; intros st.
  - cbn. by intros [= ->].
  - cbn [window_loop]. rewrite run_window_set_current_window.
    destruct (run_window _ _ _ _ io st) as [out|e]; cbn [bind after]; [|done].
    apply IH.
Qed.

Lemma window_loop_counters (ios : list window_io) (st st' : miner) :
  window_loop forward decode batch_decode lr_schedule ios st = Ok st' ->
  sync_window st' = (sync_window st + Z.of_nat (length ios))%Z /\
  global_step st' = (global_step st + Z.of_nat (length ios))%Z.
Proof.
  revert st. induction ios as [|io ios IH]; intros st.
  - cbn. intros [= ->]. lia.
  - cbn [window_loop].
    destruct (run_window _ _ _ _ io st) as [out|e] eqn:Hrun; cbn [bind]; [|done].
    intros Hrest. apply IH in Hrest as [Hsync Hstep].
    apply run_window_inv in Hrun. cbn zeta in Hrun.
    destruct Hrun as (_ & _ & _ & _ & _ & _ & Hs & Hg & _).
    rewrite Hsync, Hstep, Hs, Hg. cbn [length]. lia.
Qed.

(** The block listener writes [current_window] only. *)
Lemma handler_writes_current_window (blocks_per_window number : Z) (st : miner) :
  current_window (handler blocks_per_window number st) = window_of number blocks_per_window /\
  sync_window (handler blocks_per_window number st) = sync_window st /\
  global_step (handler blocks_per_window number st) = global_step st.
Proof.
  unfold handler. case_decide as Hw; [done|].
  split; [|done].
  by destruct (decide (window_of number blocks_per_window = current_window st)).
Qed.

(** C8, as the code has it.  In a run that gets through the given windows,
    [sync_window] and [global_step] have advanced by exactly one per window;
    the wait on [current_window == sync_window] took place once, before the
    first window: it read the value of [sync_window] some number of times and
    then a different value; and the windows themselves never read
    [current_window]: whatever the block listener writes there, they run the
    same. *)
Theorem sync_window_advances (reads : list Z) (ios : list window_io) (st st' : miner) :
  run forward decode batch_decode lr_schedule reads ios st = Some (Ok st') ->
  sync_window st' = (sync_window st + Z.of_nat (length ios))%Z /\
  global_step st' = (global_step st + Z.of_nat (length ios))%Z /\
  (exists spun c rest,
     reads = spun ++ c :: rest /\
     Forall (fun r => r = sync_window st) spun /\ c <> sync_window st) /\
  (forall c, window_loop forward decode batch_decode lr_schedule ios
               (set_current_window c st) = Ok (set_current_window c st')).
Proof.
  unfold run. destruct (wait_exhausted _ _) as [rest|] eqn:Hwait; [|done].
  intros [= Hloop]. destruct (window_loop_counters _ _ _ Hloop) as [Hsync Hstep].
  split; [done|]. split; [done|]. split.
  - destruct (wait_exhausted_spec _ _ _ Hwait) as (spun & c & Hreads & Hspun & Hc).
    by exists spun, c, rest.
  - intros c. by apply window_loop_set_current_window.
Qed.

End Window.

(** * Closed runs *)

(** The empty update on the one-parameter model. *)
Lemma evaluate_empty_update_raises_witness :
  toy_evaluate ∅ toy_model toy_model ∅ (toy_loader one_batch one_batch 1)
    = Raise (KeyError "w").
Proof.
  apply (evaluate_empty_update_raises toy_forward toy_decode toy_model toy_model
           (Qc_of_Z 4) (toy_loader one_batch one_batch 1) "w" (weight 2) []).
  reflexivity.
Defined.

(** The same input through a whole window: the only peer answers with an empty
    state dict and [run] ends in the [KeyError]. *)
Lemma run_window_empty_update :
  toy_run_window (toy_io (fun _ => Some ∅) one_batch one_batch)
    (toy_miner toy_model [1%Z; 0%Z] 5 4) = Raise (KeyError "w").
Proof. compute_done. Qed.

(** An update that covers the model is undone exactly, and the two losses
    differ when the trial changes the loss. *)
Lemma toy_evaluate_full :
  toy_evaluate ∅ toy_model toy_model (update_for ["w"%string] 3)
    (toy_loader one_batch one_batch 1) = Ok toy_evaluation.
Proof. compute_done. Qed.

(** A loader without batches, an update that covers the model. *)
Lemma improvement_division_unguarded_witness :
  toy_evaluate ∅ toy_model toy_model (update_for ["w"%string] 3) (toy_loader [] [] 1)
    = Raise ZeroDivisionError /\
  (forall loss_after_per_batch, improvement loss_after_per_batch 0 = Raise ZeroDivisionError).
Proof.
  apply (improvement_division_unguarded toy_forward toy_decode ∅ toy_model toy_model
           (Qc_of_Z 4) (update_for ["w"%string] 3) (toy_loader [] [] 1)).
  - reflexivity.
  - compute_done.
Defined.

(** The example of the specification: a loss of 2.0 before and of 1.0 after is
    an improvement of 50.0. *)
Lemma improvement_example : improvement (Qc_of_Z 1) (Qc_of_Z 2) = Ok (Qc_of_Z 50).
Proof. compute_done. Qed.





(** The value the stale gradient leaves in [w] is not the one it had. *)
Lemma stale_temp_grad_changes_weight :
  add_ (data (weight 2)) (tensor_sign [Qc_of_Z 3]) (Qc_of_Z 4 * Q2Qc (25 # 100))
    = [Qc_of_Z 3]
  /\ data (weight 2) = [Qc_of_Z 2].
Proof. split; compute_done. Qed.




Lemma sync_window_advances_witness :
  sync_window (after_quiet_windows 2 4 4) = (4 + Z.of_nat 2)%Z /\
  global_step (after_quiet_windows 2 4 4) = (0 + Z.of_nat 2)%Z /\
  (exists spun c rest,
     [4%Z; 4%Z; 5%Z] = spun ++ c :: rest /\
     Forall (fun r => r = 4%Z) spun /\ c <> 4%Z) /\
  (forall c, toy_window_loop [quiet_io; quiet_io]
               (set_current_window c (toy_miner toy_model [1%Z; 0%Z] 4 4))
             = Ok (set_current_window c (after_quiet_windows 2 4 4))).
Proof.
  apply (sync_window_advances toy_forward toy_decode toy_batch_decode toy_schedule
           [4%Z; 4%Z; 5%Z] [quiet_io; quiet_io] (toy_miner toy_model [1%Z; 0%Z] 4 4)
           (after_quiet_windows 2 4 4)).
  compute_done.
Defined.

(** C8, as stated, fails from the second window on.  The listener shows window
    5 while [sync_window] is 4, so the wait ends at once; the first window
    runs with [current_window <> sync_window] and leaves both at 5; the second
    window runs all the same, with [current_window = sync_window], and no read
    of [current_window] comes between the two. *)
Lemma no_wait_between_windows_counterexample :
  wait_exhausted 4 [5%Z] = Some [] /\
  current_window (toy_miner toy_model [1%Z; 0%Z] 5 4)
    <> sync_window (toy_miner toy_model [1%Z; 0%Z] 5 4) /\
  toy_run_window quiet_io (toy_miner toy_model [1%Z; 0%Z] 5 4) = Ok (quiet_out 1 5 4) /\
  current_window (after (quiet_out 1 5 4)) = sync_window (after (quiet_out 1 5 4)) /\
  toy_run_window quiet_io (after (quiet_out 1 5 4)) = Ok (quiet_out 2 5 4) /\
  global_step (after (quiet_out 2 5 4)) = 2%Z /\
  sync_window (after (quiet_out 2 5 4)) = 6%Z /\
  toy_run [5%Z] [quiet_io; quiet_io] (toy_miner toy_model [1%Z; 0%Z] 5 4)
    = Some (Ok (after (quiet_out 2 5 4))).
Proof. repeat split; compute_done. Qed.

(** * More of the loop: what the windows keep and how they compose *)

(** X15: the wait before the first window goes on for as long as every read of
    [current_window] gives [sync_window], and only then: it is still waiting
    after the given reads exactly when all of them equal [sync_window]. *)
Theorem wait_exhausted_None_iff (sync : Z) (reads : list Z) :
  wait_exhausted sync reads = None <-> Forall (fun r => r = sync) reads.
Proof.
  induction reads as [|r reads IH]; cbn [wait_exhausted].
  - split; [constructor|done].
  - destruct (decide (r ≠ sync)) as [Hne|Heq].
    + split; [done|]. intros Hall. by apply Forall_cons in Hall as [? _].
    + rewrite IH. split.
      * intros Hall. constructor; [|done]. by destruct (decide (r = sync)).
      * intros Hall. by apply Forall_cons in Hall as [_ ?].
Qed.

Lemma window_of_div (number blocks_per_window : Z) :
  (0 <= number)%Z -> (0 < blocks_per_window)%Z ->
  window_of number blocks_per_window = (number `div` blocks_per_window)%Z.
Proof. intros Hn Hb. unfold window_of. apply Z.quot_div_nonneg; lia. Qed.


(** X17: when the block numbers the listener receives do not decrease, neither
    does [current_window]; the handler never writes [sync_window]. *)
Theorem handler_monotone (blocks_per_window n1 n2 : Z) (st : miner) :
  (0 < blocks_per_window)%Z -> (0 <= n1 <= n2)%Z ->
  (current_window (handler blocks_per_window n1 st)
     <= current_window (handler blocks_per_window n2 (handler blocks_per_window n1 st)))%Z
  /\ sync_window (handler blocks_per_window n2 (handler blocks_per_window n1 st))
     = sync_window st.
Proof.
  intros Hb Hn.
  destruct (handler_writes_current_window blocks_per_window n1 st) as (H1 & Hs1 & _).
  destruct (handler_writes_current_window blocks_per_window n2
              (handler blocks_per_window n1 st)) as (H2 & Hs2 & _).
  rewrite H1, H2, Hs2, Hs1. split; [|done].
  rewrite !window_of_div by lia. apply Z.div_le_mono; lia.
Qed.

Lemma Qc_eq_Qeq (x y : Qc) : x = y -> (this x == this y)%Q.
Proof. by intros ->. Qed.

(** X4: for a positive loss before the trial the improvement is defined, it is
    positive exactly when the loss went down, 0 exactly when the loss is
    unchanged, and at most 100 when the loss after is not negative. *)
Theorem improvement_sign (loss_after_per_batch loss_before_per_batch : Qc) :
  0 < loss_before_per_batch ->
  exists imp,
    improvement loss_after_per_batch loss_before_per_batch = Ok imp /\
    (0 < imp <-> loss_after_per_batch < loss_before_per_batch) /\
    (imp = 0 <-> loss_after_per_batch = loss_before_per_batch) /\
    (0 <= loss_after_per_batch -> imp <= Qc_of_Z 100).
Proof.
  intros Hpos.
  assert (loss_before_per_batch <> 0) as Hnz.
  { apply Qclt_not_eq in Hpos. congruence. }
  eexists. split; [by apply improvement_nonzero|].
  assert (exists q, loss_after_per_batch = q * loss_before_per_batch /\
                    loss_after_per_batch / loss_before_per_batch = q) as (q & -> & ->).
  { exists (loss_after_per_batch / loss_before_per_batch).
    split; [by rewrite Qcmult_comm, Qcmult_div_r|done]. }
  repeat split.
  - intros H. qc_to_q. nra.
  - intros H. qc_to_q. nra.
  - intros H. apply Qc_eq_Qeq in H.
    assert (q = 1) as ->; [qc_lra|]. by rewrite Qcmult_1_l.
  - intros H. apply Qc_eq_Qeq in H.
    assert (q = 1) as ->; [qc_nra|]. by apply Qc_is_canon.
  - intros H. qc_to_q. nra.
Qed.

Lemma sign_is_sign (x : Qc) : is_sign (sign x).
Proof. unfold sign, is_sign. repeat case_decide; auto. Qed.

Lemma tensor_sign_is_sign (t : tensor) : Forall is_sign (tensor_sign t).
Proof. unfold tensor_sign. apply Forall_fmap, Forall_true, sign_is_sign. Qed.



Section EvaluationMore.

Variable forward : nn_module -> batch -> Qc.
Variable decode : string -> tensor -> blob -> blob -> tensor.

Lemma evaluate_ZeroDivisionError (tg : gmap string tensor) (model copy : nn_module)
    (lr : Qc) (sd : gmap string blob) (ld : loader) :
  revertible sd tg (names (named_parameters model)) ->
  loss_per_batch forward model (first_walk ld) = 0 ->
  evaluate forward decode tg model copy lr sd ld = Raise ZeroDivisionError.
Proof.
  intros Hall Hzero. unfold revertible in Hall. rewrite Forall_forall in Hall.
  unfold evaluate. cbn [named_parameters set_parameters].
  rewrite revert_Ok.
  - cbn [bind]. by rewrite Hzero, improvement_zero_before.
  - intros k Hk. rewrite trial_fst in Hk.
    rewrite names_fmap in Hk by apply trial_param_name.
    destruct (Hall k Hk) as [Hcov|Htg].
    + by apply trial_snd_covered.
    + by apply trial_snd_mono.
Qed.

Lemma evaluate_not_revertible (tg : gmap string tensor) (model copy : nn_module)
    (lr : Qc) (sd : gmap string blob) (ld : loader) :
  ~ revertible sd tg (names (named_parameters model)) ->
  exists k, evaluate forward decode tg model copy lr sd ld = Raise (KeyError k).
Proof.
  intros Hnot. unfold revertible in Hnot.
  apply not_Forall_Exists in Hnot; [|apply _].
  apply Exists_exists in Hnot as (n & Hn & Hnone).
  destruct (evaluate_KeyError forward decode tg model copy lr sd ld n) as (k & Hk & _).
  - done.
  - intros Hcov. apply Hnone. by left.
  - destruct (tg !! n) eqn:Htg; [|done]. exfalso. apply Hnone. right. by eexists.
  - by exists k.
Qed.

(** X1: how the evaluation of a peer ends.  It completes exactly when the
    revert finds a gradient for every parameter and the loss before the trial
    is not 0; it ends in [ZeroDivisionError] exactly when the revert finds
    every gradient and the loss before is 0; it ends in a [KeyError] exactly
    when some parameter has no gradient at the revert, whatever the losses
    are. *)
Theorem evaluate_outcome (tg : gmap string tensor) (model copy : nn_module)
    (lr : Qc) (sd : gmap string blob) (ld : loader) :
  ((exists ev, evaluate forward decode tg model copy lr sd ld = Ok ev) <->
     revertible sd tg (names (named_parameters model)) /\
     loss_per_batch forward model (first_walk ld) <> 0) /\
  (evaluate forward decode tg model copy lr sd ld = Raise ZeroDivisionError <->
     revertible sd tg (names (named_parameters model)) /\
     loss_per_batch forward model (first_walk ld) = 0) /\
  ((exists k, evaluate forward decode tg model copy lr sd ld = Raise (KeyError k)) <->
     ~ revertible sd tg (names (named_parameters model))).
Proof.
  destruct (decide (revertible sd tg (names (named_parameters model)))) as [Hrev|Hnot].
  - destruct (decide (loss_per_batch forward model (first_walk ld) = 0)) as [Hz|Hnz].
    + rewrite (evaluate_ZeroDivisionError _ _ _ _ _ _ Hrev Hz).
      split; [|split]; split; try done.
      * by intros [ev ?].
      * by intros [_ ?].
      * by intros [k ?].
    + pose proof (evaluate_Ok forward decode tg model copy lr sd ld) as Hev.
      cbn zeta in Hev. unfold revertible in Hrev. rewrite Forall_forall in Hrev.
      rewrite (Hev Hrev Hnz).
      split; [|split]; split; try done.
      * intros _. split; [by apply Forall_forall|done].
      * intros _. by eexists.
      * by intros [_ ?].
      * by intros [k ?].
      * intros Hnot. exfalso. apply Hnot. by apply Forall_forall.
  - destruct (evaluate_not_revertible tg model copy lr sd ld Hnot) as [k Hk].
    rewrite Hk. split; [|split]; split; try done.
    + by intros [ev ?].
    + by intros [? _].
    + by intros [? _].
    + intros _. by exists k.
Qed.




End EvaluationMore.

Lemma list_remove_Permutation (x : Z) (l : list Z) :
  x ∈ l -> l ≡ₚ x :: list_remove x l.
Proof.
  induction l as [|y l IH]; intros Hin; [by apply elem_of_nil in Hin|].
  cbn [list_remove]. destruct (decide (x = y)) as [->|Hne]; [done|].
  apply elem_of_cons in Hin as [?|Hin]; [done|].
  rewrite (IH Hin) at 1. apply Permutation_swap.
Qed.

Section WindowMore.

Variable forward : nn_module -> batch -> Qc.
Variable decode : string -> tensor -> blob -> blob -> tensor.
Variable batch_decode : string -> tensor -> list blob -> list blob -> tensor.
Variable lr_schedule : nat -> Qc.

Lemma revert_meta (tg : gmap string tensor) (step : Qc)
    (ps ps' : list (string * parameter)) :
  revert tg step ps = Ok ps' -> meta <$> ps' = meta <$> ps.
Proof.
  revert ps'. induction ps as [|[n p] rest IH]; intros ps'.
  - cbn. by intros [= <-].
  - cbn [revert]. destruct (tg !! n) as [g|]; [|done].
    destruct (revert tg step rest) as [rest'|e]; cbn [bind]; [|done].
    intros [= <-]. cbn [fmap list_fmap]. f_equal. by apply IH.
Qed.

Lemma evaluate_meta (tg : gmap string tensor) (model copy : nn_module) (lr : Qc)
    (sd : gmap string blob) (ld : loader) (ev : evaluation) :
  evaluate forward decode tg model copy lr sd ld = Ok ev ->
  meta <$> named_parameters (ev_model ev) = meta <$> named_parameters model /\
  training (ev_model ev) = training model.
Proof.
  unfold evaluate. cbn [named_parameters set_parameters].
  destruct (revert _ _ _) as [params|e] eqn:Hrevert; [|done]. cbn [bind].
  destruct (improvement _ _) as [imp|e]; [|done]. cbn [bind].
  intros [= <-]. cbn [ev_model named_parameters set_parameters training]. split; [|done].
  apply revert_meta in Hrevert. rewrite Hrevert, trial_fst, <- list_fmap_compose.
  apply list_fmap_ext. intros i np _. cbn [compose]. unfold trial_param, meta.
  by destruct (sd !! (np.1 +:+ "idxs")), (sd !! (np.1 +:+ "vals")).
Qed.

Lemma pass_meta (fresh : bool) (load : Z -> loader) (lr : Qc)
    (er : gmap Z (option (gmap string blob))) (l : list Z) (s s' : pass_state) :
  for_each (eval_step forward decode fresh load lr er) l s = Ok s' ->
  meta <$> named_parameters (ps_model s') = meta <$> named_parameters (ps_model s) /\
  training (ps_model s') = training (ps_model s).
Proof.
  revert s. induction l as [|v l IH]; intros s.
  - cbn. by intros [= ->].
  - cbn [for_each]. unfold eval_step at 1.
    destruct (er !! v) as [[sd|]|]; cbn [bind]; [|by apply IH|done].
    destruct (evaluate _ _ _ _ _ _ _ _) as [ev|e] eqn:Hev; cbn [bind]; [|done].
    intros Hrest. apply IH in Hrest as [Hm Ht]. cbn [ps_model] in *.
    apply evaluate_meta in Hev as [Hm' Ht']. split; congruence.
Qed.

Lemma meta_names (ps ps' : list (string * parameter)) :
  meta <$> ps' = meta <$> ps -> names ps' = names ps.
Proof.
  intros H. apply (f_equal (fmap fst)) in H.
  rewrite <- !list_fmap_compose in H. exact H.
Qed.


Lemma for_each_improvement_mono (fresh : bool) (load : Z -> loader) (lr : Qc)
    (er : gmap Z (option (gmap string blob))) (l : list Z) (s s' : pass_state) (u : Z) :
  for_each (eval_step forward decode fresh load lr er) l s = Ok s' ->
  is_Some (ps_improvement s !! u) -> is_Some (ps_improvement s' !! u).
Proof.
  revert s. induction l as [|v l IH]; intros s.
  - cbn. by intros [= ->].
  - cbn [for_each]. unfold eval_step at 1.
    destruct (er !! v) as [[sd|]|]; cbn [bind]; [|by apply IH|done].
    destruct (evaluate _ _ _ _ _ _ _ _) as [ev|e]; cbn [bind]; [|done].
    intros Hrest Hu. apply (IH _ Hrest). cbn [ps_improvement].
    destruct (decide (v = u)) as [->|Hne].
    + rewrite lookup_insert_eq. by eexists.
    + by rewrite lookup_insert_ne.
Qed.

Lemma for_each_improvement_present (fresh : bool) (load : Z -> loader) (lr : Qc)
    (er : gmap Z (option (gmap string blob))) (l : list Z) (s s' : pass_state)
    (u : Z) (sd : gmap string blob) :
  for_each (eval_step forward decode fresh load lr er) l s = Ok s' ->
  u ∈ l -> er !! u = Some (Some sd) -> is_Some (ps_improvement s' !! u).
Proof.
  revert s. induction l as [|v l IH]; intros s Hpass Hu Her.
  - by apply elem_of_nil in Hu.
  - cbn [for_each] in Hpass. unfold eval_step at 1 in Hpass.
    destruct (decide (v = u)) as [->|Hne].
    + rewrite Her in Hpass.
      destruct (evaluate _ _ _ _ _ _ _ _) as [ev|e]; cbn [bind] in Hpass; [|done].
      apply (for_each_improvement_mono _ _ _ _ _ _ _ _ Hpass). cbn [ps_improvement].
      rewrite lookup_insert_eq. by eexists.
    + apply elem_of_cons in Hu as [?|Hu]; [done|].
      destruct (er !! v) as [[sdv|]|]; cbn [bind] in Hpass; [|by apply (IH s)|done].
      destruct (evaluate _ _ _ _ _ _ _ _) as [ev|e]; cbn [bind] in Hpass; [|done].
      by apply (IH _ Hpass).
Qed.

(** What a completed window is made of. *)
Lemma run_window_Ok_inv (io : window_io) (st : miner) (out : window_out) :
  run_window forward decode batch_decode lr_schedule io st = Ok out ->
  let peers' :=
    if decide (uid st ∈ peers st) then list_remove (uid st) (peers st) else peers st in
  let lr := lr_schedule (last_epoch st) in
  exists s1 s2,
    own_pass forward decode io lr (fetch_all io peers') peers'
      {| ps_model := model st; ps_model_copy := deepcopy (model st);
         ps_temp_grad := ∅; ps_improvement := ∅ |} = Ok s1 /\
    other_pass forward decode io lr (fetch_all io peers') peers'
      {| ps_model := ps_model s1; ps_model_copy := deepcopy (ps_model s1);
         ps_temp_grad := ps_temp_grad s1; ps_improvement := ∅ |} = Ok s2 /\
    named_parameters (ps_model s2) <> [] /\
    loss_improvement out = ps_improvement s1 /\
    loss_improvement_other out = ps_improvement s2 /\
    peers (after out) = peers' /\
    model (after out) =
      set_parameters (ps_model s2)
        (optimizer_step lr
           (apply_gathered batch_decode (gather_result io)
              (named_parameters (ps_model s2)))) /\
    loss_improvement_moving_avg (after out) =
      update_moving_avg (ps_improvement s1) (ps_improvement s2)
        (loss_improvement_moving_avg st).
Proof.
  unfold run_window. cbn zeta.
  destruct (own_pass _ _ _ _ _ _ _) as [s1|e] eqn:Hown; cbn [bind]; [|done].
  destruct (other_pass _ _ _ _ _ _ _) as [s2|e] eqn:Hother; cbn [bind]; [|done].
  unfold log_metrics.
  destruct (decide (length _ = 0%nat)) as [Hlen|Hlen]; cbn [bind]; [done|].
  intros [= <-]. exists s1, s2.
  split; [done|]. split; [done|]. split; [|by repeat split].
  intros Hnil. by rewrite Hnil in Hlen.
Qed.


Lemma sign_grads_meta (ps ps' : list (string * parameter)) :
  meta <$> ps' = meta <$> ps -> sign_grads ps -> sign_grads ps'.
Proof.
  unfold sign_grads. intros Hm Hs. apply Forall_lookup. intros i np' Hi.
  assert ((meta <$> ps) !! i = Some (meta np')) as Hi'.
  { by rewrite <- Hm, list_lookup_fmap, Hi. }
  rewrite list_lookup_fmap in Hi'.
  destruct (ps !! i) as [np|] eqn:Hnp; [|done].
  cbn in Hi'. unfold meta in Hi'. injection Hi' as _ Hg.
  rewrite Forall_lookup in Hs. specialize (Hs i np Hnp). by rewrite <- Hg.
Qed.

Lemma apply_gathered_lookup (gsd : gmap string gathered)
    (ps : list (string * parameter)) (i : nat) (n : string) (p : parameter) :
  ps !! i = Some (n, p) ->
  apply_gathered batch_decode gsd ps !! i =
    Some (n, match gsd !! (n +:+ "idxs"), gsd !! (n +:+ "vals") with
             | Some idxs, Some vals =>
                 set_grad p (Some (tensor_sign
                   (batch_decode n (data p) (as_list idxs) (as_list vals))))
             | _, _ => p
             end).
Proof.
  intros Hi. unfold apply_gathered. rewrite list_lookup_fmap, Hi.
  cbn [fmap option_fmap option_map fst snd].
  by destruct (gsd !! (n +:+ "idxs")), (gsd !! (n +:+ "vals")).
Qed.


Lemma sign_grads_step (lr : Qc) (gsd : gmap string gathered)
    (ps : list (string * parameter)) :
  sign_grads ps -> sign_grads (optimizer_step lr (apply_gathered batch_decode gsd ps)).
Proof.
  unfold sign_grads. intros Hs. apply Forall_lookup. intros i np' Hi.
  unfold optimizer_step in Hi. rewrite list_lookup_fmap in Hi.
  destruct (apply_gathered batch_decode gsd ps !! i) as [[n q]|] eqn:Hq; [|done].
  assert (exists p, ps !! i = Some (n, p)) as [p Hp].
  { unfold apply_gathered in Hq. rewrite list_lookup_fmap in Hq.
    destruct (ps !! i) as [[k p]|]; [|done]. exists p. cbn in Hq.
    destruct (gsd !! (k +:+ "idxs")), (gsd !! (k +:+ "vals")); by injection Hq as -> _. }
  rewrite (apply_gathered_lookup _ _ _ _ _ Hp) in Hq. injection Hq as <-.
  rewrite Forall_lookup in Hs. specialize (Hs i (n, p) Hp). cbn [snd] in Hs.
  cbn [fmap option_fmap option_map fst snd] in Hi.
  assert (match grad (match gsd !! (n +:+ "idxs"), gsd !! (n +:+ "vals") with
                      | Some idxs, Some vals =>
                          set_grad p (Some (tensor_sign
                            (batch_decode n (data p) (as_list idxs) (as_list vals))))
                      | _, _ => p
                      end) with
          | Some g => Forall is_sign g
          | None => True
          end) as Hq.
  { destruct (gsd !! (n +:+ "idxs")), (gsd !! (n +:+ "vals")); try done.
    cbn [set_grad grad]. apply tensor_sign_is_sign. }
  revert Hi Hq. generalize (match gsd !! (n +:+ "idxs"), gsd !! (n +:+ "vals") with
                      | Some idxs, Some vals =>
                          set_grad p (Some (tensor_sign
                            (batch_decode n (data p) (as_list idxs) (as_list vals))))
                      | _, _ => p
                      end). intros q Hi Hq.
  destruct (grad q) as [g|] eqn:Hg; injection Hi as <-; cbn [snd set_data grad];
    by rewrite ?Hg.
Qed.





(** X5: a window completes only if the model has a parameter and every update
    that a peer of the window answered with has a gradient for every
    parameter of the model. *)
Theorem completed_window_requirements (io : window_io) (st : miner) (out : window_out) :
  run_window forward decode batch_decode lr_schedule io st = Ok out ->
  named_parameters (model st) <> [] /\
  (forall u sd, u ∈ peers (after out) -> get_gradient io u = Some sd ->
     Forall (covered sd) (names (named_parameters (model st)))).
Proof.
  intros Hrun. apply run_window_Ok_inv in Hrun. cbn zeta in Hrun.
  destruct Hrun as (s1 & s2 & Hown & Hother & Hne & _ & _ & Hpeers & _).
  fold (window_peers st) in Hown, Hother, Hpeers. split.
  - intros Hnil. apply Hne.
    unfold own_pass in Hown. unfold other_pass in Hother.
    apply pass_meta in Hown as [Hm1 _]. apply pass_meta in Hother as [Hm2 _].
    cbn [ps_model] in *. rewrite Hm1, Hnil in Hm2.
    by destruct (named_parameters (ps_model s2)).
  - intros u sd Hu Hget. rewrite Hpeers in Hu.
    apply (own_pass_Ok_covered forward decode _ _ _ _ _ _ u sd Hown Hu).
    rewrite fetch_all_lookup, decide_True by done. by rewrite Hget.
Qed.


Lemma run_window_sign_grads (io : window_io) (st : miner) (out : window_out) :
  run_window forward decode batch_decode lr_schedule io st = Ok out ->
  sign_grads (named_parameters (model st)) ->
  sign_grads (named_parameters (model (after out))).
Proof.
  intros Hrun Hs. apply run_window_Ok_inv in Hrun. cbn zeta in Hrun.
  destruct Hrun as (s1 & s2 & Hown & Hother & _ & _ & _ & _ & -> & _).
  unfold own_pass in Hown. unfold other_pass in Hother.
  apply pass_meta in Hown as [Hm1 _]. apply pass_meta in Hother as [Hm2 _].
  cbn [ps_model] in *. rewrite Hm1 in Hm2.
  cbn [set_parameters named_parameters]. apply sign_grads_step.
  by apply (sign_grads_meta _ _ Hm2).
Qed.

(** X9: the windows keep the gradients made of signs: when every gradient of
    the model is unset or holds only -1, 0 and 1, the same is true after any
    number of completed windows. *)
Theorem sign_grads_invariant (ios : list window_io) (st st' : miner) :
  window_loop forward decode batch_decode lr_schedule ios st = Ok st' ->
  sign_grads (named_parameters (model st)) ->
  sign_grads (named_parameters (model st')).
Proof.
  revert st. induction ios as [|io ios IH]; intros st.
  - cbn. by intros [= ->].
  - cbn [window_loop].
    destruct (run_window _ _ _ _ io st) as [out|e] eqn:Hrun; cbn [bind]; [|done].
    intros Hrest Hs. apply (IH _ Hrest). by apply (run_window_sign_grads io st).
Qed.



(** X10: a completed window removes one occurrence of the miner's own uid from
    the peers, and nothing else: the peers before are a permutation of the
    uid and the peers after; peers without the uid are unchanged; and when the
    peers had no duplicates the uid is not among the peers any more. *)
Theorem run_window_removes_self (io : window_io) (st : miner) (out : window_out) :
  run_window forward decode batch_decode lr_schedule io st = Ok out ->
  uid (after out) = uid st /\
  (uid st ∈ peers st -> peers st ≡ₚ uid st :: peers (after out)) /\
  (uid st ∉ peers st -> peers (after out) = peers st) /\
  (NoDup (peers st) -> (uid st ∉ peers (after out)) /\ NoDup (peers (after out))).
Proof.
  intros Hrun. pose proof Hrun as Huid.
  apply run_window_Ok_inv in Hrun. cbn zeta in Hrun.
  destruct Hrun as (s1 & s2 & _ & _ & _ & _ & _ & Hpeers & _).
  assert (uid (after out) = uid st) as Hu.
  { revert Huid. unfold run_window. cbn zeta.
    destruct (own_pass _ _ _ _ _ _ _) as [?|?]; cbn [bind]; [|done].
    destruct (other_pass _ _ _ _ _ _ _) as [?|?]; cbn [bind]; [|done].
    destruct (log_metrics _) as [[]|?]; cbn [bind]; [|done]. by intros [= <-]. }
  split; [done|]. rewrite Hpeers. split; [|split].
  - intros Hin. rewrite decide_True by done. by apply list_remove_Permutation.
  - intros Hnin. by rewrite decide_False.
  - intros Hnodup. destruct (decide (uid st ∈ peers st)) as [Hin|Hnin]; [|done].
    pose proof (list_remove_Permutation _ _ Hin) as Hperm.
    rewrite Hperm in Hnodup. by apply NoDup_cons in Hnodup.
Qed.

(** X12: the moving averages after a completed window.  A uid that is not a
    peer of the window or whose [get] returned nothing keeps its entry, or its
    absence.  A peer that answered has both improvements and its entry is the
    moving average of its former value (0 when it had none) and the binary
    value of its two improvements. *)
Theorem run_window_scores (io : window_io) (st : miner) (out : window_out) (u : Z) :
  run_window forward decode batch_decode lr_schedule io st = Ok out ->
  (u ∉ peers (after out) \/ get_gradient io u = None ->
     loss_improvement_moving_avg (after out) !! u = loss_improvement_moving_avg st !! u) /\
  (u ∈ peers (after out) -> is_Some (get_gradient io u) ->
     exists own other,
       loss_improvement out !! u = Some own /\
       loss_improvement_other out !! u = Some other /\
       loss_improvement_moving_avg (after out) !! u =
         Some (moving_avg (prev_avg (loss_improvement_moving_avg st) u)
                 (binary_value own other))).
Proof.
  intros Hrun. apply run_window_Ok_inv in Hrun. cbn zeta in Hrun.
  destruct Hrun as (s1 & s2 & Hown & Hother & _ & -> & -> & -> & _ & ->).
  fold (window_peers st) in Hown, Hother |- *.
  unfold own_pass in Hown. unfold other_pass in Hother.
  rewrite update_moving_avg_lookup. split.
  - intros Hskip.
    assert (forall sd, fetch_all io (window_peers st) !! u <> Some (Some sd)) as Hno.
    { intros sd. rewrite fetch_all_lookup. case_decide as Hin; [|done].
      destruct Hskip as [?|Hnone]; [done|]. by rewrite Hnone. }
    rewrite (for_each_improvement_frame _ _ _ _ _ _ _ _ _ u Hno Hown).
    cbn [ps_improvement]. by rewrite lookup_empty.
  - intros Hin [sd Hget].
    assert (fetch_all io (window_peers st) !! u = Some (Some sd)) as Her.
    { rewrite fetch_all_lookup, decide_True by done. by rewrite Hget. }
    destruct (for_each_improvement_present _ _ _ _ _ _ _ u sd Hown Hin Her)
      as [own Hownu].
    destruct (for_each_improvement_present _ _ _ _ _ _ _ u sd Hother Hin Her)
      as [other Hotheru].
    exists own, other. by rewrite Hownu, Hotheru.
Qed.

Lemma update_moving_avg_bounded (li lio avg : gmap Z Qc) :
  scores_bounded avg -> scores_bounded (update_moving_avg li lio avg).
Proof.
  unfold scores_bounded. intros Havg u x. rewrite update_moving_avg_lookup.
  destruct (li !! u) as [own|]; [|by apply Havg].
  destruct (lio !! u) as [other|]; [|by apply Havg].
  intros [= <-]. apply moving_avg_bounds.
  - unfold binary, binary_value. case_decide; auto.
  - unfold prev_avg. destruct (avg !! u) as [y|] eqn:Hy; cbn [default].
    + by apply (Havg u).
    + split; by vm_compute.
Qed.

(** X13: the windows keep the moving averages within [-1, 1]: when all of them
    are before a run of completed windows, all of them are after it. *)
Theorem scores_bounded_invariant (ios : list window_io) (st st' : miner) :
  window_loop forward decode batch_decode lr_schedule ios st = Ok st' ->
  scores_bounded (loss_improvement_moving_avg st) ->
  scores_bounded (loss_improvement_moving_avg st').
Proof.
  revert st. induction ios as [|io ios IH]; intros st.
  - cbn. by intros [= ->].
  - cbn [window_loop].
    destruct (run_window _ _ _ _ io st) as [out|e] eqn:Hrun; cbn [bind]; [|done].
    intros Hrest Hb. apply (IH _ Hrest).
    apply run_window_Ok_inv in Hrun. cbn zeta in Hrun.
    destruct Hrun as (s1 & s2 & _ & _ & _ & _ & _ & _ & _ & ->).
    by apply update_moving_avg_bounded.
Qed.


(** X11: from the constructor through the first window: when the first window
    completes, the peers are the configured peers without the first
    occurrence of the miner's own uid (whether the constructor had to append
    the uid or found it), and [sync_window] is one past the window of the
    block the miner started at. *)
Theorem first_window_peers (local_uid : Z) (config_peers comms_peers : list Z)
    (m : nn_module) (block blocks_per_window : Z) (io : window_io) (out : window_out) :
  run_window forward decode batch_decode lr_schedule io
    (init local_uid config_peers comms_peers m block blocks_per_window) = Ok out ->
  peers (after out) = list_remove local_uid (configured_peers config_peers comms_peers) /\
  sync_window (after out) = (window_of block blocks_per_window + 1)%Z.
Proof.
  intros Hrun. apply run_window_inv in Hrun as Hinv. cbn zeta in Hinv.
  destruct Hinv as (_ & _ & _ & _ & _ & _ & Hsync & _).
  apply run_window_Ok_inv in Hrun. cbn zeta in Hrun.
  destruct Hrun as (s1 & s2 & _ & _ & _ & _ & _ & Hpeers & _).
  split; [|done]. rewrite Hpeers. cbn [init uid peers]. unfold init_peers.
  set (l := configured_peers config_peers comms_peers).
  destruct (decide (local_uid ∈ l)) as [Hin|Hnin].
  - by rewrite decide_True.
  - rewrite decide_True by (apply elem_of_app; right; by apply list_elem_of_singleton).
    clear -Hnin. induction l as [|y l IH]; cbn [app list_remove].
    + by rewrite decide_True.
    + apply not_elem_of_cons in Hnin as [Hne Hnin].
      rewrite !decide_False by done. f_equal. by apply IH.
Qed.

End WindowMore.

(** ** Closed runs of the windows *)

Lemma gather_window :
  toy_run_window gather_io (toy_miner toy_model [1%Z; 2%Z; 0%Z] 5 4) = Ok (gather_out 5 4).
Proof. compute_done. Qed.

Lemma quiet_window_after_gather :
  toy_run_window quiet_io (after (gather_out 5 4)) = Ok gather_then_quiet_out.
Proof. compute_done. Qed.



Lemma improvement_sign_witness :
  exists imp,
    improvement (Qc_of_Z 1) (Qc_of_Z 2) = Ok imp /\
    (0 < imp <-> Qc_of_Z 1 < Qc_of_Z 2) /\
    (imp = 0 <-> Qc_of_Z 1 = Qc_of_Z 2) /\
    (0 <= Qc_of_Z 1 -> imp <= Qc_of_Z 100).
Proof. apply (improvement_sign (Qc_of_Z 1) (Qc_of_Z 2)). by vm_compute. Defined.

Lemma completed_window_requirements_witness :
  named_parameters toy_model <> [] /\
  (forall u sd, u ∈ peers (after (gather_out 5 4)) -> get_gradient gather_io u = Some sd ->
     Forall (covered sd) (names (named_parameters toy_model))).
Proof.
  apply (completed_window_requirements toy_forward toy_decode toy_batch_decode
           toy_schedule gather_io (toy_miner toy_model [1%Z; 2%Z; 0%Z] 5 4)
           (gather_out 5 4)).
  compute_done.
Defined.




Lemma sign_grads_invariant_witness :
  sign_grads (named_parameters (model (after gather_then_quiet_out))).
Proof.
  apply (sign_grads_invariant toy_forward toy_decode toy_batch_decode toy_schedule
           [gather_io; quiet_io] (toy_miner toy_model [1%Z; 2%Z; 0%Z] 5 4)
           (after gather_then_quiet_out)); compute_done.
Defined.

Lemma run_window_removes_self_witness :
  [1%Z; 2%Z; 0%Z] ≡ₚ 0%Z :: peers (after (gather_out 5 4)) /\
  (0%Z ∉ peers (after (gather_out 5 4))) /\
  NoDup (peers (after (gather_out 5 4))).
Proof.
  destruct (run_window_removes_self toy_forward toy_decode toy_batch_decode
              toy_schedule gather_io (toy_miner toy_model [1%Z; 2%Z; 0%Z] 5 4)
              (gather_out 5 4)) as (_ & Hperm & _ & Hnodup).
  - compute_done.
  - split.
    + apply Hperm. compute_done.
    + apply Hnodup. compute_done.
Defined.

(** Started at block 45 with windows of 10 blocks, without [--peers] and with
    the peers 1 and 2 from the comms layer. *)
Lemma first_window_peers_witness :
  peers (after (gather_out 4 4)) = list_remove 0 (configured_peers [] [1%Z; 2%Z]) /\
  sync_window (after (gather_out 4 4)) = (window_of 45 10 + 1)%Z.
Proof.
  apply (first_window_peers toy_forward toy_decode toy_batch_decode toy_schedule
           0 [] [1%Z; 2%Z] toy_model 45 10 gather_io (gather_out 4 4)).
  compute_done.
Defined.

Lemma run_window_scores_witness :
  loss_improvement_moving_avg (after (gather_out 5 4)) !! 2%Z = None /\
  (exists own other,
     loss_improvement (gather_out 5 4) !! 1%Z = Some own /\
     loss_improvement_other (gather_out 5 4) !! 1%Z = Some other /\
     loss_improvement_moving_avg (after (gather_out 5 4)) !! 1%Z =
       Some (moving_avg (prev_avg ∅ 1) (binary_value own other))).
Proof.
  split.
  - apply (proj1 (run_window_scores toy_forward toy_decode toy_batch_decode
                    toy_schedule gather_io (toy_miner toy_model [1%Z; 2%Z; 0%Z] 5 4)
                    (gather_out 5 4) 2%Z ltac:(compute_done))).
    right. reflexivity.
  - apply (proj2 (run_window_scores toy_forward toy_decode toy_batch_decode
                    toy_schedule gather_io (toy_miner toy_model [1%Z; 2%Z; 0%Z] 5 4)
                    (gather_out 5 4) 1%Z ltac:(compute_done))).
    + compute_done.
    + by eexists.
Defined.

Lemma scores_bounded_invariant_witness :
  scores_bounded (loss_improvement_moving_avg (after gather_then_quiet_out)).
Proof.
  apply (scores_bounded_invariant toy_forward toy_decode toy_batch_decode toy_schedule
           [gather_io; quiet_io] (toy_miner toy_model [1%Z; 2%Z; 0%Z] 5 4)
           (after gather_then_quiet_out)); compute_done.
Defined.


Lemma handler_monotone_witness :
  (current_window (handler 10 45 (toy_miner toy_model [1%Z] 3 3))
     <= current_window (handler 10 61 (handler 10 45 (toy_miner toy_model [1%Z] 3 3))))%Z
  /\ sync_window (handler 10 61 (handler 10 45 (toy_miner toy_model [1%Z] 3 3))) = 3%Z.
Proof.
  apply (handler_monotone 10 45 61 (toy_miner toy_model [1%Z] 3 3)); lia.
Defined.
